(** * finance-web: the financial computation engine of [js/data-service.js]

    A shallow embedding of the portfolio engine (snapshot builder, transfer
    merger, adjustment aggregator, comparator, performance calculator,
    forecast and month navigation) together with the properties stated for
    it.

    The engine is embedded twice.

    - The first embedding takes a JavaScript [number] as an exact rational
      ([Q]; equality of numbers is [==]) and a JavaScript object used as a
      dictionary as a [gmap string _].  It carries the properties that are
      about the formulas and the branches of the code: which expression a
      field holds, which test selects a branch, what a search in a list
      finds, which document is written.  Every division of the engine is
      guarded by a test on its divisor.
    - The module [Double] takes a [number] as the binary64 float it is and an
      assignment to a plain object as the language performs it.  It carries
      the properties that depend on how sums are rounded or on which keys an
      object really holds: the totals of a snapshot, the balance after a
      merge, the accumulators of the adjustment map, the keys of the maps.

    Common conventions.
    - [null]/[undefined] arguments and absent fields are [option]s; a
      default parameter value ([adjustment = 0], [isFirstMonth = false],
      [adjustments = {}]) is supplied by the caller.
    - Strings are byte strings; [toLowerCase] and the class [\s] act on the
      ASCII range.
    - Iteration over a dictionary is a left fold over [map_to_list].
    - The portfolio document is a mutable object: it lives in a [heap] and is
      passed around by reference ([loc]).  A parsed JSON document is a tree
      (no node is shared), so the root is the only node that needs an
      identity. *)

From Stdlib Require Import QArith Qround Lqa Ascii Floats.
From stdpp Require Import gmap strings list fin_maps.

Set Warnings "-inexact-float".

Local Open Scope Q_scope.

(** ** Strings *)

(** [String.prototype.toLowerCase] on the ASCII range. *)
Definition ascii_toLowerCase (c : ascii) : ascii :=
  let n := nat_of_ascii c in
  if (65 <=? n)%nat && (n <=? 90)%nat then ascii_of_nat (n + 32) else c.

Fixpoint toLowerCase (s : string) : string :=
  match s with
  | EmptyString => EmptyString
  | String c s' => String (ascii_toLowerCase c) (toLowerCase s')
  end.

(** The class [\s] on the ASCII range: TAB, LF, VT, FF, CR and SPACE. *)
Definition is_whitespace (c : ascii) : bool :=
  let n := nat_of_ascii c in
  ((9 <=? n)%nat && (n <=? 13)%nat) || (n =? 32)%nat.

(** [s.replace(/\s+/g, '_')]: every maximal run of whitespace becomes one
    underscore.  [in_run] tells that the previous character was whitespace. *)
Fixpoint replace_ws_runs (in_run : bool) (s : string) : string :=
  match s with
  | EmptyString => EmptyString
  | String c s' =>
      if is_whitespace c
      then (if in_run then replace_ws_runs true s'
            else String "_" (replace_ws_runs true s'))
      else String c (replace_ws_runs false s')
  end.

Definition getAssetKey (categoryId source name : string) : string :=
  replace_ws_runs false
    (toLowerCase (categoryId +:+ "_" +:+ source +:+ "_" +:+ name)).

(** [key.startsWith(p)] *)
Definition startsWith (key p : string) : bool := String.prefix p key.

(** ** Numbers *)

(** Sum of a list, accumulated from the left starting at [0], as
    [reduce((s, x) => s + x, 0)] does. *)
Definition Qsum (l : list Q) : Q := foldl Qplus 0 l.

(** The comparisons [x > y], [x <= y] and [x === y] on numbers. *)
Definition num_gt (x y : Q) : bool := negb (Qle_bool x y).
Definition num_le (x y : Q) : bool := Qle_bool x y.
Definition num_eq (x y : Q) : bool := Qeq_bool x y.

(** [x || d] for an optional number, [x ?? d] for any optional field. *)
Definition or_default {A} (d : A) (o : option A) : A :=
  match o with Some v => v | None => d end.

(** ** Data model *)

(** An asset entry of a monthly document.  The last four fields are absent in
    a persisted document and are set by the transfer merger. *)
Record Item := mkItem {
  item_name : string;
  item_source : string;
  item_val : Q;
  item_originalVal : option Q;
  item_isVirtual : option bool;
  item_adjustment : option Q;
  item_adjustmentHistory : option (list Q)
}.

Definition plainItem (name source : string) (val : Q) : Item :=
  mkItem name source val None None None None.

Record Category := mkCategory {
  cat_id : string;
  cat_title : string;
  cat_color : string;
  cat_items : list Item
}.

(** [{portfolio: [...]}]; [portfolio] may be missing. *)
Record PortfolioData := mkPortfolioData {
  portfolio : option (list Category)
}.

Inductive Transfer :=
| deposit (category source name : string) (amount : Q)
| withdraw (category source name : string) (amount : Q)
| move (from_category from_source from_name
        to_category to_source to_name : string) (amount : Q)
| other_type (type : string) (amount : Q).

(** ** Comparison: calculateDelta *)

Record DeltaInfo := mkDeltaInfo {
  delta : Q;
  percent : Q;
  adjustedStart : Q;
  previousVal : Q;
  currentVal : Q
}.

Definition calculateDelta (currentVal previousVal adjustment : Q) : DeltaInfo :=
  let adjustedStart := previousVal + adjustment in
  let delta := currentVal - adjustedStart in
  let percent :=
    if num_gt adjustedStart 0 then (delta / adjustedStart) * 100
    else if num_gt currentVal 0 && num_eq adjustedStart 0 then 0
    else 0 in
  mkDeltaInfo delta percent adjustedStart previousVal currentVal.

(** ** Performance calculator *)

Record Performance := mkPerformance {
  startBalance : Q;
  endBalance : Q;
  totalDeposits : Q;
  totalWithdraws : Q;
  netFlow : Q;
  profit : Q;
  yieldPercent : Q
}.

(** The two accumulators of the [forEach] loop of [calculatePerformance]. *)
Definition perf_step (acc : Q * Q) (t : Transfer) : Q * Q :=
  match t with
  | deposit _ _ _ amount => (acc.1 + amount, acc.2)
  | withdraw _ _ _ amount => (acc.1, acc.2 + amount)
  | _ => acc
  end.

Definition calculatePerformance (startBalance endBalance : Q)
    (transfers : option (list Transfer)) (isFirstMonth : bool) : Performance :=
  if isFirstMonth then
    mkPerformance 0 endBalance endBalance 0 endBalance 0 0
  else
    let '(totalDeposits, totalWithdraws) :=
      match transfers with
      | Some ts => foldl perf_step (0, 0) ts
      | None => (0, 0)
      end in
    let netFlow := totalDeposits - totalWithdraws in
    let profit := endBalance - (startBalance + netFlow) in
    let investedCapital := startBalance + totalDeposits in
    let yieldPercent :=
      if num_gt investedCapital (1 # 100)
      then (profit / investedCapital) * 100
      else if num_gt profit 0 then 100
      else 0 in
    mkPerformance startBalance endBalance totalDeposits totalWithdraws
      netFlow profit yieldPercent.

(** ** Snapshot builder *)

Record AssetData := mkAssetData {
  ad_key : string;
  ad_categoryId : string;
  ad_source : string;
  ad_name : string;
  ad_val : Q;
  ad_originalVal : Q;
  ad_isVirtual : bool;
  ad_adjustment : Q
}.

Record CatData := mkCatData {
  cd_id : string;
  cd_title : string;
  cd_color : string;
  cd_total : Q;
  cd_items : gmap string AssetData
}.

Record Snapshot := mkSnapshot {
  snap_total : Q;
  snap_categories : gmap string CatData;
  snap_assetMap : gmap string AssetData
}.

Definition emptySnapshot : Snapshot := mkSnapshot 0 ∅ ∅.

(** Body of the inner [cat.items.forEach]: it updates [catData] and
    [snapshot.assetMap]. *)
Definition addItem (cat : Category)
    (st : CatData * gmap string AssetData) (item : Item)
    : CatData * gmap string AssetData :=
  let '(catData, assetMap) := st in
  let key := getAssetKey (cat_id cat) (item_source item) (item_name item) in
  let assetData :=
    mkAssetData key (cat_id cat) (item_source item) (item_name item)
      (item_val item)
      (or_default (item_val item) (item_originalVal item))
      (or_default false (item_isVirtual item))
      (or_default 0 (item_adjustment item)) in
  (mkCatData (cd_id catData) (cd_title catData) (cd_color catData)
     (cd_total catData + item_val item)
     (<[key := assetData]> (cd_items catData)),
   <[key := assetData]> assetMap).

(** Body of the outer [portfolioData.portfolio.forEach]. *)
Definition addCategory (snapshot : Snapshot) (cat : Category) : Snapshot :=
  let catData0 := mkCatData (cat_id cat) (cat_title cat) (cat_color cat) 0 ∅ in
  let '(catData, assetMap) :=
    foldl (addItem cat) (catData0, snap_assetMap snapshot) (cat_items cat) in
  mkSnapshot (snap_total snapshot + cd_total catData)
    (<[cat_id cat := catData]> (snap_categories snapshot))
    assetMap.

(** The second parameter ([transfers = []]) is never read by the source. *)
Definition buildSnapshot (portfolioData : option PortfolioData)
    (transfers : list Transfer) : Snapshot :=
  match portfolioData with
  | None => emptySnapshot
  | Some d =>
      match portfolio d with
      | None => emptySnapshot
      | Some cats => foldl addCategory emptySnapshot cats
      end
  end.

(** ** Adjustment aggregator *)

Record Adjustment := mkAdjustment {
  deposits : Q;
  withdraws : Q;
  net : Q
}.

Definition zeroAdjustment : Adjustment := mkAdjustment 0 0 0.

(** [if (!adjustments[key]) adjustments[key] = {0,0,0}] followed by the two
    [+=] on the entry. *)
Definition addDeposit (key : string) (amount : Q)
    (adjustments : gmap string Adjustment) : gmap string Adjustment :=
  let a := or_default zeroAdjustment (adjustments !! key) in
  <[key := mkAdjustment (deposits a + amount) (withdraws a) (net a + amount)]>
    adjustments.

Definition addWithdraw (key : string) (amount : Q)
    (adjustments : gmap string Adjustment) : gmap string Adjustment :=
  let a := or_default zeroAdjustment (adjustments !! key) in
  <[key := mkAdjustment (deposits a) (withdraws a + amount) (net a - amount)]>
    adjustments.

Definition adjust_step (adjustments : gmap string Adjustment) (t : Transfer)
    : gmap string Adjustment :=
  match t with
  | deposit category source name amount =>
      addDeposit (getAssetKey category source name) amount adjustments
  | withdraw category source name amount =>
      addWithdraw (getAssetKey category source name) amount adjustments
  | move fc fs fn tc ts tn amount =>
      let fromKey := getAssetKey fc fs fn in
      let toKey := getAssetKey tc ts tn in
      addDeposit toKey amount (addWithdraw fromKey amount adjustments)
  | other_type _ _ => adjustments
  end.

Definition getAdjustmentsPerAsset (transfers : option (list Transfer))
    (portfolioData : option PortfolioData) : gmap string Adjustment :=
  match transfers, portfolioData with
  | Some ts, Some _ => foldl adjust_step ∅ ts
  | _, _ => ∅
  end.

(** ** Comparator *)

Inductive Status := status_new | status_ghost | status_hidden | status_normal.

Record AssetComparison := mkAssetComparison {
  ac_info : DeltaInfo;
  ac_status : Status;
  ac_categoryId : option string;
  ac_source : option string;
  ac_name : option string
}.

Record Comparison := mkComparison {
  cmp_portfolio : DeltaInfo;
  cmp_categories : gmap string DeltaInfo;
  cmp_assets : gmap string AssetComparison
}.

(** [a || b] on optional strings: the empty string is falsy. *)
Definition str_or (a b : option string) : option string :=
  match a with
  | Some EmptyString => b
  | Some _ => a
  | None => b
  end.

(** The status chosen by the [if]/[else if] chain of [compareSnapshots]. *)
Definition statusOf (currentVal previousVal : Q) (previous : option AssetData)
    : Status :=
  if num_gt currentVal 0 && bool_decide (previous = None) then status_new
  else if num_eq currentVal 0 && num_gt previousVal 0 then status_ghost
  else if num_eq currentVal 0 && num_eq previousVal 0 then status_hidden
  else status_normal.

(** Body of [allAssetKeys.forEach]. *)
Definition compareAsset (currentSnapshot : Snapshot)
    (previousSnapshot : option Snapshot)
    (adjustments : gmap string Adjustment) (key : string) : AssetComparison :=
  let current := snap_assetMap currentSnapshot !! key in
  let previous := previousSnapshot ≫= (λ p, snap_assetMap p !! key) in
  let adj := or_default 0 (net <$> adjustments !! key) in
  let currentVal := or_default 0 (ad_val <$> current) in
  let previousVal := or_default 0 (ad_val <$> previous) in
  let deltaInfo := calculateDelta currentVal previousVal adj in
  mkAssetComparison deltaInfo (statusOf currentVal previousVal previous)
    (str_or (ad_categoryId <$> current) (ad_categoryId <$> previous))
    (str_or (ad_source <$> current) (ad_source <$> previous))
    (str_or (ad_name <$> current) (ad_name <$> previous)).

(** The inner [Object.entries(adjustments).forEach] of the category loop. *)
Definition catAdjustment (catId : string)
    (adjustments : gmap string Adjustment) : Q :=
  foldl (λ acc (e : string * Adjustment),
           if startsWith e.1 (catId +:+ "_") then acc + net e.2 else acc)
        0 (map_to_list adjustments).

(** Body of [allCatIds.forEach]. *)
Definition compareCategory (currentSnapshot : Snapshot)
    (previousSnapshot : option Snapshot)
    (adjustments : gmap string Adjustment) (catId : string) : DeltaInfo :=
  let currentCat := snap_categories currentSnapshot !! catId in
  let previousCat := previousSnapshot ≫= (λ p, snap_categories p !! catId) in
  let currentTotal := or_default 0 (cd_total <$> currentCat) in
  let previousTotal := or_default 0 (cd_total <$> previousCat) in
  calculateDelta currentTotal previousTotal (catAdjustment catId adjustments).

(** [keys.forEach(k => target[k] = f(k))] *)
Definition fillKeys {V} (f : string → V) (keys : list string)
    : gmap string V :=
  foldl (λ acc k, <[k := f k]> acc) ∅ keys.

Definition compareSnapshots (currentSnapshot : Snapshot)
    (previousSnapshot : option Snapshot)
    (adjustments : gmap string Adjustment) : Comparison :=
  let prevAssets := or_default ∅ (snap_assetMap <$> previousSnapshot) in
  let allAssetKeys :=
    elements (dom (snap_assetMap currentSnapshot) ∪ dom prevAssets) in
  let assets :=
    fillKeys (compareAsset currentSnapshot previousSnapshot adjustments)
      allAssetKeys in
  let prevCats := or_default ∅ (snap_categories <$> previousSnapshot) in
  let allCatIds :=
    elements (dom (snap_categories currentSnapshot) ∪ dom prevCats) in
  let categories :=
    fillKeys (compareCategory currentSnapshot previousSnapshot adjustments)
      allCatIds in
  let totalAdjustment :=
    foldl (λ sum (e : string * Adjustment), sum + net e.2) 0
      (map_to_list adjustments) in
  mkComparison
    (calculateDelta (snap_total currentSnapshot)
       (or_default 0 (snap_total <$> previousSnapshot)) totalAdjustment)
    categories assets.

(** ** Annual projection *)

Section Projection.

(** [Math.pow] is a primitive of the platform (a real power with a
    fractional exponent); the engine is parametric in it. *)
Variable Math_pow : Q → Q → Q.

Definition calculateProjectedAnnual (ytd monthsPassed : Q) : Q :=
  if num_le monthsPassed 0 then 0
  else
    let exponent := 12 / monthsPassed in
    let base := 1 + ytd in
    if num_le base 0 then - (1)
    else Math_pow base exponent - 1.

End Projection.

(** ** Total balance *)

Definition categoryTotal (category : Category) : Q :=
  foldl (λ sum item, sum + item_val item) 0 (cat_items category).

Definition calculateTotalBalance (portfolioData : option PortfolioData) : Q :=
  match portfolioData ≫= portfolio with
  | None => 0
  | Some cats => foldl (λ total category, total + categoryTotal category) 0 cats
  end.

(** ** Transfer merger *)

(** Documents are mutable objects held in a heap; a [loc] is a reference to
    one.  Reading through a reference that is not allocated yields [None],
    which plays the role of [null]. *)
Abbreviation loc := positive (only parsing).
Abbreviation heap := (gmap positive PortfolioData) (only parsing).

(** A computation on the heap either returns a value and the new heap, or
    throws (a [TypeError] on reading a property of [undefined]). *)
Inductive outcome (A : Type) :=
| Returned (a : A) (h : heap)
| Thrown.
Arguments Returned {A} a h.
Arguments Thrown {A}.

Definition M (A : Type) : Type := heap → outcome A.

#[global] Instance M_ret : MRet M := λ A a h, Returned a h.

#[global] Instance M_bind : MBind M :=
  λ A B k m h, match m h with
               | Returned a h' => k a h'
               | Thrown => Thrown
               end.

Fixpoint forEach {A} (l : list A) (f : A → M unit) : M unit :=
  match l with
  | [] => mret ()
  | x :: l' => f x ;; forEach l' f
  end.

(** The writes [applyTransferOperation] performs on the asset it found or
    created. *)
Definition touchAsset (asset : Item) (amount : Q) : Item :=
  mkItem (item_name asset) (item_source asset)
    (item_val asset + amount)
    (Some (or_default (item_val asset) (item_originalVal asset)))
    (Some true)
    (Some (or_default 0 (item_adjustment asset) + amount))
    (Some (or_default [] (item_adjustmentHistory asset) ++ [amount])).

(** [category.items.find(...)], [category.items.push(asset)] when nothing is
    found, then the writes on the asset. *)
Definition applyToItems (items : list Item) (source assetName : string)
    (amount : Q) : list Item :=
  match list_find (λ i, item_name i = assetName ∧ item_source i = source)
          items with
  | Some (k, asset) => <[k := touchAsset asset amount]> items
  | None => items ++ [touchAsset (plainItem assetName source 0) amount]
  end.

Definition withItems (category : Category) (items : list Item) : Category :=
  mkCategory (cat_id category) (cat_title category) (cat_color category) items.

(** [portfolio.find(c => c.id === categoryId)], with the default grey
    category pushed when nothing is found. *)
Definition applyToPortfolio (cats : list Category)
    (categoryId source assetName : string) (amount : Q) : list Category :=
  match list_find (λ c, cat_id c = categoryId) cats with
  | Some (k, category) =>
      <[k := withItems category
               (applyToItems (cat_items category) source assetName amount)]>
        cats
  | None =>
      cats ++ [mkCategory categoryId categoryId "#cbd5e0"
                 (applyToItems [] source assetName amount)]
  end.

Definition applyTransferOperation (portfolioData : loc)
    (categoryId source assetName : string) (amount : Q) : M unit :=
  λ h, match h !! portfolioData ≫= portfolio with
       | None => Thrown
       | Some cats =>
           Returned ()
             (<[portfolioData :=
                  mkPortfolioData
                    (Some (applyToPortfolio cats categoryId source assetName
                             amount))]> h)
       end.

(** Body of [transfers.forEach] in [mergeTransfers]. *)
Definition merge_step (portfolioData : loc) (t : Transfer) : M unit :=
  match t with
  | deposit category source name amount =>
      applyTransferOperation portfolioData category source name amount
  | withdraw category source name amount =>
      applyTransferOperation portfolioData category source name (- amount)
  | move fc fs fn tc ts tn amount =>
      applyTransferOperation portfolioData fc fs fn (- amount) ;;
      applyTransferOperation portfolioData tc ts tn amount
  | other_type _ _ => mret ()
  end.

(** The returned reference is the argument itself: the document is updated in
    place. *)
Definition mergeTransfers (portfolioData : option loc)
    (transfers : option (list Transfer)) : M (option loc) :=
  match transfers with
  | None | Some [] => mret portfolioData
  | Some ts =>
      match portfolioData with
      | None => mret portfolioData
      | Some l =>
          λ h, match h !! l ≫= portfolio with
               | None => Returned portfolioData h
               | Some _ => (forEach ts (merge_step l) ;; mret portfolioData) h
               end
      end
  end.

(** The document a reference denotes in a heap. *)
Definition deref (h : heap) (portfolioData : option loc)
    : option PortfolioData :=
  portfolioData ≫= (λ l, h !! l).

(** * Vocabulary of the properties *)

(** ** Performance *)

(** The amounts of the deposits, resp. withdrawals, of a transfer list, in
    list order, and their sums. *)
Definition depositAmounts (ts : list Transfer) : list Q :=
  omap (λ t, match t with deposit _ _ _ a => Some a | _ => None end) ts.

Definition withdrawAmounts (ts : list Transfer) : list Q :=
  omap (λ t, match t with withdraw _ _ _ a => Some a | _ => None end) ts.

Definition depositSum (ts : list Transfer) : Q := Qsum (depositAmounts ts).
Definition withdrawSum (ts : list Transfer) : Q := Qsum (withdrawAmounts ts).

(** A power function on rationals with an integral exponent (the exponent is
    truncated), enough to run the projection on whole-year divisors. *)
Definition pow_floor (base exponent : Q) : Q := base ^ Qfloor exponent.

(** ** Comparison *)

(** The record of an asset key in an optional snapshot, and its value with
    the default [0] of the comparator; the same for categories. *)
Definition assetIn (s : option Snapshot) (key : string) : option AssetData :=
  s ≫= (λ p, snap_assetMap p !! key).

Definition valIn (s : option Snapshot) (key : string) : Q :=
  or_default 0 (ad_val <$> assetIn s key).

Definition categoryIn (s : option Snapshot) (catId : string)
    : option CatData :=
  s ≫= (λ p, snap_categories p !! catId).

Definition totalIn (s : option Snapshot) (catId : string) : Q :=
  or_default 0 (cd_total <$> categoryIn s catId).

(** [adjustments[key]?.net || 0] *)
Definition netOf (adjustments : gmap string Adjustment) (key : string) : Q :=
  or_default 0 (net <$> adjustments !! key).

(** The sum of the net adjustments of exactly those asset keys that start
    with [catId] followed by the separator. *)
Definition prefixedNetSum (catId : string)
    (adjustments : gmap string Adjustment) : Q :=
  Qsum ((λ e : string * Adjustment, net e.2) <$>
        filter (λ e : string * Adjustment,
                  startsWith e.1 (catId +:+ "_") = true)
               (map_to_list adjustments)).

(** ** The transfer merger seen on the category list *)

(** What one transfer, and then a whole list, does to the category list of
    the document it is merged into. *)
Definition stepCats (cats : list Category) (t : Transfer) : list Category :=
  match t with
  | deposit category source name amount =>
      applyToPortfolio cats category source name amount
  | withdraw category source name amount =>
      applyToPortfolio cats category source name (- amount)
  | move fc fs fn tc ts tn amount =>
      applyToPortfolio (applyToPortfolio cats fc fs fn (- amount))
        tc ts tn amount
  | other_type _ _ => cats
  end.

Definition mergeCats (cats : list Category) (ts : list Transfer)
    : list Category :=
  foldl stepCats cats ts.

Definition totalCats (cats : list Category) : Q :=
  foldl (λ total category, total + categoryTotal category) 0 cats.

(** ** Sample data *)

(** One category with one asset. *)
Definition doc_btc (val : Q) : PortfolioData :=
  mkPortfolioData
    (Some [mkCategory "crypto" "Crypto" "#f6ad55"
             [plainItem "BTC" "Binance" val]]).

Definition key_btc : string := "crypto_binance_btc".

(** A heap holding one document, at reference [1]. *)
Definition heap_btc (val : Q) : gmap positive PortfolioData :=
  {[ 1%positive := doc_btc val ]}.

(** * Further functions of the engine *)

(** ** Forecast: simple yield and year-to-date compounding *)

(** Body of the [forEach] of [calculateSimpleYield]: two independent tests on
    the type of the transfer. *)
Definition simple_step (acc : Q * Q) (t : Transfer) : Q * Q :=
  let acc1 :=
    match t with
    | deposit _ _ _ amount => (acc.1 + amount, acc.2)
    | _ => acc
    end in
  match t with
  | withdraw _ _ _ amount => (acc1.1, acc1.2 + amount)
  | _ => acc1
  end.

Definition calculateSimpleYield (startBalance endBalance : Q)
    (transfers : option (list Transfer)) : Q :=
  let '(deposits, withdraws) :=
    match transfers with
    | Some ts => foldl simple_step (0, 0) ts
    | None => (0, 0)
    end in
  let netFlow := deposits - withdraws in
  let profit := endBalance - (startBalance + netFlow) in
  let investedCapital := startBalance + deposits in
  if num_le investedCapital (1 # 100) then
    if num_gt profit 0 then 1 else 0
  else profit / investedCapital.

Definition calculateYTD (yields : list Q) : Q :=
  foldl (λ compounded r, compounded * (1 + r)) 1 yields - 1.

(** ** Vocabulary: the record of an item *)

(** The record the snapshot builder makes of an item, and the key it files
    it under. *)
Definition assetDataOf (cat : Category) (item : Item) : AssetData :=
  mkAssetData (getAssetKey (cat_id cat) (item_source item) (item_name item))
    (cat_id cat) (item_source item) (item_name item) (item_val item)
    (or_default (item_val item) (item_originalVal item))
    (or_default false (item_isVirtual item))
    (or_default 0 (item_adjustment item)).

(** ** Vocabulary: what merging keeps of a document *)

(** Category identifiers are pairwise distinct, and so are the (name, source)
    pairs of the items of each category. *)
Definition wellKeyed (cats : list Category) : Prop :=
  NoDup (cat_id <$> cats) ∧
  Forall (λ cat, NoDup ((λ i, (item_name i, item_source i)) <$> cat_items cat))
    cats.

(** ** Forecast: the statistics of the year *)

(** An entry of the sequence [fetchYearSequence] returns: the month, a
    reference to its document ([None] when the month has no file) and its
    flattened transfers. *)
Record MonthEntry := mkMonthEntry {
  me_id : string;
  me_data : option loc;
  me_transfers : option (list Transfer)
}.

(** The variables of the loop of [calculateYearStats]. *)
Record YearLoop := mkYearLoop {
  yl_yields : list Q;
  yl_currentMonthYield : Q;
  yl_currentMonthProfit : Q;
  yl_prevBalance : Q;
  yl_accumulatedNetFlow : Q
}.

Record YearStats := mkYearStats {
  ys_monthYield : Q;
  ys_monthProfit : Q;
  ys_ytd : Q;
  ys_ytdProfit : Q;
  ys_projected : Q;
  ys_projectedProfit : Q
}.

(** [JSON.parse(JSON.stringify(data))]: a new object with the same
    content. *)
Definition deepCopy (d : PortfolioData) : M loc :=
  λ h, let l := fresh (dom h) in Returned l (<[l := d]> h).

(** [calculateTotalBalance(monthData)] on the current heap. *)
Definition readTotalBalance (portfolioData : option loc) : M Q :=
  λ h, Returned (calculateTotalBalance (deref h portfolioData)) h.

(** The part of the loop body that follows the computation of the end
    balance. *)
Definition yearUpdate (currentMonthId : string) (isFirst : bool)
    (st : YearLoop) (item : MonthEntry) (endBalance : Q) : YearLoop :=
  let startBalance := yl_prevBalance st in
  let '(mDeposits, mWithdraws) :=
    match me_transfers item with
    | Some ts => foldl simple_step (0, 0) ts
    | None => (0, 0)
    end in
  let mNetFlow := mDeposits - mWithdraws in
  let '(yieldVal, profitVal, accumulatedNetFlow) :=
    if isFirst then (0, 0, yl_accumulatedNetFlow st + endBalance)
    else (calculateSimpleYield startBalance endBalance (me_transfers item),
          endBalance - (startBalance + mNetFlow),
          yl_accumulatedNetFlow st + mNetFlow) in
  let selected := bool_decide (me_id item = currentMonthId) in
  mkYearLoop (yl_yields st ++ [yieldVal])
    (if selected then yieldVal else yl_currentMonthYield st)
    (if selected then profitVal else yl_currentMonthProfit st)
    endBalance accumulatedNetFlow.

(** The entry of a month without data: a yield of 0, nothing else moves. *)
Definition yearSkip (st : YearLoop) : YearLoop :=
  mkYearLoop (yl_yields st ++ [0]) (yl_currentMonthYield st)
    (yl_currentMonthProfit st) (yl_prevBalance st)
    (yl_accumulatedNetFlow st).

(** One iteration of the loop; [isFirst] is [sequence.indexOf(item) === 0]. *)
Definition yearStep (currentMonthId : string) (isFirst : bool)
    (st : YearLoop) (item : MonthEntry) : M YearLoop :=
  λ h, match deref h (me_data item) with
       | None => Returned (yearSkip st) h
       | Some d =>
           (monthData ← deepCopy d;
            mergeTransfers (Some monthData) (me_transfers item) ;;
            endBalance ← readTotalBalance (Some monthData);
            mret (yearUpdate currentMonthId isFirst st item endBalance)) h
       end.

Fixpoint yearLoop (currentMonthId : string) (isFirst : bool)
    (sequence : list MonthEntry) (st : YearLoop) : M YearLoop :=
  match sequence with
  | [] => mret st
  | item :: rest =>
      st' ← yearStep currentMonthId isFirst st item;
      yearLoop currentMonthId false rest st'
  end.

(** [calculateYearStats], from the sequence the fetch has returned on. *)
Definition calculateYearStats (Math_pow : Q → Q → Q)
    (currentMonthId : string) (sequence : list MonthEntry) : M YearStats :=
  st ← yearLoop currentMonthId true sequence (mkYearLoop [] 0 0 0 0);
  let ytd := calculateYTD (yl_yields st) in
  let currentEndBalance := yl_prevBalance st in
  let ytdProfit := currentEndBalance - yl_accumulatedNetFlow st in
  let monthsPassed := inject_Z (Z.of_nat (length sequence)) in
  let projected := calculateProjectedAnnual Math_pow ytd monthsPassed in
  let projectedProfit := currentEndBalance * projected in
  mret (mkYearStats (yl_currentMonthYield st) (yl_currentMonthProfit st)
          ytd ytdProfit projected projectedProfit).

(** *** Vocabulary *)

(** The balance of a document once its transfers are merged in. *)
Definition virtualBalance (d : PortfolioData)
    (transfers : option (list Transfer)) : Q :=
  match transfers, portfolio d with
  | Some ts, Some cats => totalCats (mergeCats cats ts)
  | _, _ => calculateTotalBalance (Some d)
  end.

(** The loop as a function of the documents the references denote in [h]. *)
Definition yearStepIn (h : heap) (currentMonthId : string) (isFirst : bool)
    (st : YearLoop) (item : MonthEntry) : YearLoop :=
  match deref h (me_data item) with
  | None => yearSkip st
  | Some d =>
      yearUpdate currentMonthId isFirst st item
        (virtualBalance d (me_transfers item))
  end.

(** *** Sample sequences *)

(** January worth 1000 at reference [1], February worth 1200 at [2]. *)
Definition heap_year : gmap positive PortfolioData :=
  {[ 1%positive := doc_btc 1000; 2%positive := doc_btc 1200 ]}.


(** A January for which no file exists, and a February without transfers. *)
Definition entry_jan_missing : MonthEntry :=
  mkMonthEntry "2026-01" None (Some []).

Definition entry_feb_plain : MonthEntry :=
  mkMonthEntry "2026-02" (Some 2%positive) (Some []).

(** ** Month navigation *)

(** An entry of [availableMonths]. *)
Record Month := mkMonth {
  month_id : string;
  month_label : string
}.

(** [availableMonths] is a global of the page; it is a parameter here.
    [findIndex] yields [-1] when nothing matches, which is not [> 0]. *)
Definition getPreviousMonthId (availableMonths : list Month)
    (currentId : string) : option string :=
  match list_find (λ m, month_id m = currentId) availableMonths with
  | Some (currentIndex, _) =>
      if (0 <? currentIndex)%nat
      then month_id <$> availableMonths !! (currentIndex - 1)%nat
      else None
  | None => None
  end.

Definition months_q1 : list Month :=
  [mkMonth "2026-01" "January 2026"; mkMonth "2026-02" "February 2026";
   mkMonth "2026-03" "March 2026"].

(** ** Vocabulary: characters of a key *)

(** The characters of a string. *)
Fixpoint string_chars (s : string) : list ascii :=
  match s with
  | EmptyString => []
  | String c s' => c :: string_chars s'
  end.

(** An upper-case letter of the ASCII range. *)
Definition is_upper (c : ascii) : bool :=
  let n := nat_of_ascii c in (65 <=? n)%nat && (n <=? 90)%nat.

(** A character a key may contain: no whitespace, no upper-case letter. *)
Definition key_char (c : ascii) : Prop :=
  is_whitespace c = false ∧ is_upper c = false.

(** A string written in ASCII: on such strings [toLowerCase] and the class
    [\s] of the platform are the two functions above. *)
Definition is_ascii (s : string) : Prop :=
  Forall (λ c, (nat_of_ascii c < 128)%nat) (string_chars s).

(** ** Vocabulary: the targets of a transfer *)

(** The (category, source, name) triples a transfer is applied to. *)
Definition targets (t : Transfer) : list (string * string * string) :=
  match t with
  | deposit c s n _ | withdraw c s n _ => [(c, s, n)]
  | move fc fs fn tc ts tn _ => [(fc, fs, fn); (tc, ts, tn)]
  | other_type _ _ => []
  end.

(** The category list has a category [c] holding a virtual item of source
    [s] and name [n]. *)
Definition hasVirtualAsset (cats : list Category) (c s n : string) : Prop :=
  ∃ cat item, cat ∈ cats ∧ cat_id cat = c ∧ item ∈ cat_items cat ∧
              item_name item = n ∧ item_source item = s ∧
              item_isVirtual item = Some true.

(** ** Vocabulary: the asset an operation addresses *)

(** The pattern of [applyTransferOperation]: [l.find(P)], the element pushed
    when nothing is found, then the writes on the element. *)
Definition findOrPush {A} (P : A → Prop) `{!∀ x, Decision (P x)}
    (touch : A → A) (fresh : A) (l : list A) : list A :=
  match list_find P l with
  | Some (k, x) => <[k := touch x]> l
  | None => l ++ [touch fresh]
  end.

(** * The engine on IEEE-754 doubles

    The snapshot builder, the total balance, the transfer merger and the
    adjustment aggregator once more, as they run: a JavaScript [number] is the
    binary64 float it is (the primitive [float], every operation rounded to
    nearest, ties to even), and an assignment [obj[key] = v] on a plain
    object is what the language makes of it.  The properties that depend on
    how sums are rounded, or on which keys an object really holds, are stated
    on these definitions. *)
Module Double.

Local Open Scope float_scope.

(** ** Numbers *)

(** A number is falsy when it is [NaN], [0] or [-0]. *)
Definition truthy (x : float) : bool :=
  negb (PrimFloat.is_nan x || PrimFloat.is_zero x).

(** [x || 0] for a number that may be undefined. *)
Definition or_zero (x : option float) : float :=
  match x with
  | Some v => if truthy v then v else 0
  | None => 0
  end.

(** Sum of a list, accumulated from the left starting at [0], as
    [reduce((s, x) => s + x, 0)] does. *)
Definition Fsum (l : list float) : float := foldl PrimFloat.add 0 l.

(** ** Plain objects used as dictionaries *)

(** A plain object is the finite map of its own properties.  The assignment
    [obj[key] = v] of an object [v] adds or replaces the property [key],
    except for the name [__proto__]: that one is the accessor of
    [Object.prototype], so the assignment replaces the prototype of [obj] and
    adds no property.  (The objects of the engine start as the literal [{}]
    and get their properties by such assignments only, so none of them has a
    property of that name of its own.) *)
Definition obj_set {V} (key : string) (v : V) (obj : gmap string V)
    : gmap string V :=
  if decide (key = "__proto__") then obj else <[key := v]> obj.

(** The property names a plain object inherits from [Object.prototype].
    Reading one of them from an object that has no property of that name
    yields the inherited function or object, which is truthy. *)
Definition prototype_names : list string :=
  ["constructor"; "__defineGetter__"; "__defineSetter__"; "hasOwnProperty";
   "__lookupGetter__"; "__lookupSetter__"; "isPrototypeOf";
   "propertyIsEnumerable"; "toString"; "valueOf"; "__proto__";
   "toLocaleString"].

Definition inherited (key : string) : bool :=
  bool_decide (key ∈ prototype_names).

(** ** Data model *)

Record Item := mkItem {
  item_name : string;
  item_source : string;
  item_val : float;
  item_originalVal : option float;
  item_isVirtual : option bool;
  item_adjustment : option float;
  item_adjustmentHistory : option (list float)
}.

Definition plainItem (name source : string) (val : float) : Item :=
  mkItem name source val None None None None.

Record Category := mkCategory {
  cat_id : string;
  cat_title : string;
  cat_color : string;
  cat_items : list Item
}.

Record PortfolioData := mkPortfolioData {
  portfolio : option (list Category)
}.

Inductive Transfer :=
| deposit (category source name : string) (amount : float)
| withdraw (category source name : string) (amount : float)
| move (from_category from_source from_name
        to_category to_source to_name : string) (amount : float)
| other_type (type : string) (amount : float).

(** ** Snapshot builder *)

Record AssetData := mkAssetData {
  ad_key : string;
  ad_categoryId : string;
  ad_source : string;
  ad_name : string;
  ad_val : float;
  ad_originalVal : float;
  ad_isVirtual : bool;
  ad_adjustment : float
}.

Record CatData := mkCatData {
  cd_id : string;
  cd_title : string;
  cd_color : string;
  cd_total : float;
  cd_items : gmap string AssetData
}.

Record Snapshot := mkSnapshot {
  snap_total : float;
  snap_categories : gmap string CatData;
  snap_assetMap : gmap string AssetData
}.

Definition emptySnapshot : Snapshot := mkSnapshot 0 ∅ ∅.

(** The record the inner loop makes of an item. *)
Definition assetDataOf (cat : Category) (item : Item) : AssetData :=
  mkAssetData (getAssetKey (cat_id cat) (item_source item) (item_name item))
    (cat_id cat) (item_source item) (item_name item) (item_val item)
    (or_default (item_val item) (item_originalVal item))
    (or_default false (item_isVirtual item))
    (or_zero (item_adjustment item)).

(** Body of the inner [cat.items.forEach]. *)
Definition addItem (cat : Category)
    (st : CatData * gmap string AssetData) (item : Item)
    : CatData * gmap string AssetData :=
  let '(catData, assetMap) := st in
  let assetData := assetDataOf cat item in
  let key := ad_key assetData in
  (mkCatData (cd_id catData) (cd_title catData) (cd_color catData)
     (cd_total catData + item_val item)
     (obj_set key assetData (cd_items catData)),
   obj_set key assetData assetMap).

(** Body of the outer [portfolioData.portfolio.forEach]. *)
Definition addCategory (snapshot : Snapshot) (cat : Category) : Snapshot :=
  let catData0 := mkCatData (cat_id cat) (cat_title cat) (cat_color cat) 0 ∅ in
  let '(catData, assetMap) :=
    foldl (addItem cat) (catData0, snap_assetMap snapshot) (cat_items cat) in
  mkSnapshot (snap_total snapshot + cd_total catData)
    (obj_set (cat_id cat) catData (snap_categories snapshot))
    assetMap.

(** The second parameter ([transfers = []]) is never read by the source. *)
Definition buildSnapshot (portfolioData : option PortfolioData)
    (transfers : list Transfer) : Snapshot :=
  match portfolioData with
  | None => emptySnapshot
  | Some d =>
      match portfolio d with
      | None => emptySnapshot
      | Some cats => foldl addCategory emptySnapshot cats
      end
  end.

(** ** Total balance *)

Definition categoryTotal (category : Category) : float :=
  foldl (λ sum item, sum + item_val item) 0 (cat_items category).

Definition calculateTotalBalance (portfolioData : option PortfolioData)
    : float :=
  match portfolioData ≫= portfolio with
  | None => 0
  | Some cats => foldl (λ total category, total + categoryTotal category) 0 cats
  end.

(** ** Adjustment aggregator *)

Record Adjustment := mkAdjustment {
  deposits : float;
  withdraws : float;
  net : float
}.

Definition zeroAdjustment : Adjustment := mkAdjustment 0 0 0.

(** [if (!adjustments[key]) adjustments[key] = {0,0,0}] followed by the two
    [+=] on [adjustments[key]].  For an inherited name the test reads the
    inherited value, so no entry is made and the two writes land on that
    value, outside the map.  (The map starts as the literal [{}] and gets
    its entries here only, so it has no inherited name as a property of its
    own.) *)
Definition addDeposit (key : string) (amount : float)
    (adjustments : gmap string Adjustment) : gmap string Adjustment :=
  if inherited key then adjustments
  else
    let a := or_default zeroAdjustment (adjustments !! key) in
    <[key := mkAdjustment (deposits a + amount) (withdraws a)
               (net a + amount)]> adjustments.

Definition addWithdraw (key : string) (amount : float)
    (adjustments : gmap string Adjustment) : gmap string Adjustment :=
  if inherited key then adjustments
  else
    let a := or_default zeroAdjustment (adjustments !! key) in
    <[key := mkAdjustment (deposits a) (withdraws a + amount)
               (net a - amount)]> adjustments.

Definition adjust_step (adjustments : gmap string Adjustment) (t : Transfer)
    : gmap string Adjustment :=
  match t with
  | deposit category source name amount =>
      addDeposit (getAssetKey category source name) amount adjustments
  | withdraw category source name amount =>
      addWithdraw (getAssetKey category source name) amount adjustments
  | move fc fs fn tc ts tn amount =>
      let fromKey := getAssetKey fc fs fn in
      let toKey := getAssetKey tc ts tn in
      addDeposit toKey amount (addWithdraw fromKey amount adjustments)
  | other_type _ _ => adjustments
  end.

Definition getAdjustmentsPerAsset (transfers : option (list Transfer))
    (portfolioData : option PortfolioData) : gmap string Adjustment :=
  match transfers, portfolioData with
  | Some ts, Some _ => foldl adjust_step ∅ ts
  | _, _ => ∅
  end.

(** ** Transfer merger *)

(** Documents are mutable objects held in a heap and passed by reference, as
    above. *)
Abbreviation heap := (gmap positive PortfolioData) (only parsing).

Inductive outcome (A : Type) :=
| Returned (a : A) (h : heap)
| Thrown.
Arguments Returned {A} a h.
Arguments Thrown {A}.

Definition M (A : Type) : Type := heap → outcome A.

#[global] Instance M_ret : MRet M := λ A a h, Returned a h.

#[global] Instance M_bind : MBind M :=
  λ A B k m h, match m h with
               | Returned a h' => k a h'
               | Thrown => Thrown
               end.

Fixpoint forEach {A} (l : list A) (f : A → M unit) : M unit :=
  match l with
  | [] => mret ()
  | x :: l' => f x ;; forEach l' f
  end.

(** The writes [applyTransferOperation] performs on the asset it found or
    created. *)
Definition touchAsset (asset : Item) (amount : float) : Item :=
  mkItem (item_name asset) (item_source asset)
    (item_val asset + amount)
    (Some (or_default (item_val asset) (item_originalVal asset)))
    (Some true)
    (Some (or_zero (item_adjustment asset) + amount))
    (Some (or_default [] (item_adjustmentHistory asset) ++ [amount])).

Definition applyToItems (items : list Item) (source assetName : string)
    (amount : float) : list Item :=
  match list_find (λ i, item_name i = assetName ∧ item_source i = source)
          items with
  | Some (k, asset) => <[k := touchAsset asset amount]> items
  | None => items ++ [touchAsset (plainItem assetName source 0) amount]
  end.

Definition withItems (category : Category) (items : list Item) : Category :=
  mkCategory (cat_id category) (cat_title category) (cat_color category) items.

Definition applyToPortfolio (cats : list Category)
    (categoryId source assetName : string) (amount : float) : list Category :=
  match list_find (λ c, cat_id c = categoryId) cats with
  | Some (k, category) =>
      <[k := withItems category
               (applyToItems (cat_items category) source assetName amount)]>
        cats
  | None =>
      cats ++ [mkCategory categoryId categoryId "#cbd5e0"
                 (applyToItems [] source assetName amount)]
  end.

Definition applyTransferOperation (portfolioData : loc)
    (categoryId source assetName : string) (amount : float) : M unit :=
  λ h, match h !! portfolioData ≫= portfolio with
       | None => Thrown
       | Some cats =>
           Returned ()
             (<[portfolioData :=
                  mkPortfolioData
                    (Some (applyToPortfolio cats categoryId source assetName
                             amount))]> h)
       end.

(** Body of [transfers.forEach] in [mergeTransfers]. *)
Definition merge_step (portfolioData : loc) (t : Transfer) : M unit :=
  match t with
  | deposit category source name amount =>
      applyTransferOperation portfolioData category source name amount
  | withdraw category source name amount =>
      applyTransferOperation portfolioData category source name (- amount)
  | move fc fs fn tc ts tn amount =>
      applyTransferOperation portfolioData fc fs fn (- amount) ;;
      applyTransferOperation portfolioData tc ts tn amount
  | other_type _ _ => mret ()
  end.

Definition mergeTransfers (portfolioData : option loc)
    (transfers : option (list Transfer)) : M (option loc) :=
  match transfers with
  | None | Some [] => mret portfolioData
  | Some ts =>
      match portfolioData with
      | None => mret portfolioData
      | Some l =>
          λ h, match h !! l ≫= portfolio with
               | None => Returned portfolioData h
               | Some _ => (forEach ts (merge_step l) ;; mret portfolioData) h
               end
      end
  end.

Definition deref (h : heap) (portfolioData : option loc)
    : option PortfolioData :=
  portfolioData ≫= (λ l, h !! l).

(** ** Vocabulary: snapshots *)

(** The values of all asset entries of a category list, in document order. *)
Definition assetValues (cats : list Category) : list float :=
  cats ≫= (λ cat, item_val <$> cat_items cat).

(** The category totals recorded in a snapshot. *)
Definition recordedTotals (s : Snapshot) : list float :=
  (λ e : string * CatData, cd_total e.2) <$> map_to_list (snap_categories s).

(** The total recorded in a snapshot under a category identifier. *)
Definition recordedTotal (s : Snapshot) (catId : string) : option float :=
  cd_total <$> snap_categories s !! catId.

(** The statement "the total of the snapshot of [d] is the sum of the
    category totals of that snapshot". *)
Definition total_is_sum_of_category_totals (d : PortfolioData) : Prop :=
  let s := buildSnapshot (Some d) [] in
  snap_total s = Fsum (recordedTotals s).

(** The statement "the total of the snapshot of [d] is the sum of the values
    of all asset entries of [d]". *)
Definition total_is_sum_of_asset_values (d : PortfolioData) : Prop :=
  snap_total (buildSnapshot (Some d) [])
  = Fsum (assetValues (or_default [] (portfolio d))).

(** All (key, record) pairs of a category, and of a category list, in
    document order. *)
Definition catEntries (cat : Category) : list (string * AssetData) :=
  (λ item, (ad_key (assetDataOf cat item), assetDataOf cat item))
    <$> cat_items cat.

Definition docEntries (cats : list Category) : list (string * AssetData) :=
  cats ≫= catEntries.

(** The record the snapshot builder makes of a category. *)
Definition catDataOf (cat : Category) : CatData :=
  mkCatData (cat_id cat) (cat_title cat) (cat_color cat) (categoryTotal cat)
    (foldl (λ acc e, obj_set e.1 e.2 acc) ∅ (catEntries cat)).

(** A category in which two items differ only by letter case. *)
Definition doc_key_clash : PortfolioData :=
  mkPortfolioData
    (Some [mkCategory "crypto" "Crypto" "#f6ad55"
             [plainItem "BTC" "Binance" 1; plainItem "btc" "binance" 2]]).

(** ** Vocabulary: the transfer merger seen on the category list *)

Definition stepCats (cats : list Category) (t : Transfer) : list Category :=
  match t with
  | deposit category source name amount =>
      applyToPortfolio cats category source name amount
  | withdraw category source name amount =>
      applyToPortfolio cats category source name (- amount)
  | move fc fs fn tc ts tn amount =>
      applyToPortfolio (applyToPortfolio cats fc fs fn (- amount))
        tc ts tn amount
  | other_type _ _ => cats
  end.

Definition mergeCats (cats : list Category) (ts : list Transfer)
    : list Category :=
  foldl stepCats cats ts.

(** The asset the two [find] calls of [applyTransferOperation] reach. *)
Definition findAsset (cats : list Category) (categoryId source assetName : string)
    : option Item :=
  category ← snd <$> list_find (λ c, cat_id c = categoryId) cats;
  snd <$> list_find (λ i, item_name i = assetName ∧ item_source i = source)
            (cat_items category).

(** The signed amounts a transfer applies to the asset [(c, s, n)], in the
    order of its calls of [applyTransferOperation]. *)
Definition amountsOn (c s n : string) (t : Transfer) : list float :=
  match t with
  | deposit c' s' n' a => if decide ((c', s', n') = (c, s, n)) then [a] else []
  | withdraw c' s' n' a =>
      if decide ((c', s', n') = (c, s, n)) then [- a] else []
  | move fc fs fn tc ts tn a =>
      (if decide ((fc, fs, fn) = (c, s, n)) then [- a] else [])
      ++ (if decide ((tc, ts, tn) = (c, s, n)) then [a] else [])
  | other_type _ _ => []
  end.

(** An asset after the given amounts were applied to it one by one, each by
    one rounded addition to [val] and one to [adjustment || 0]. *)
Definition adjusted (asset : Item) (amounts : list float) : Item :=
  mkItem (item_name asset) (item_source asset)
    (foldl PrimFloat.add (item_val asset) amounts)
    (Some (or_default (item_val asset) (item_originalVal asset)))
    (Some true)
    (foldl (λ adj a, Some (or_zero adj + a)) (item_adjustment asset) amounts)
    (Some (or_default [] (item_adjustmentHistory asset) ++ amounts)).

Definition mergedAsset (found : option Item) (s n : string)
    (amounts : list float) : option Item :=
  match amounts with
  | [] => found
  | _ => Some (adjusted (or_default (plainItem n s 0) found) amounts)
  end.

(** The number of calls of [applyTransferOperation] a transfer, and a
    transfer list, causes. *)
Definition transferOps (t : Transfer) : nat :=
  match t with
  | deposit _ _ _ _ | withdraw _ _ _ _ => 1
  | move _ _ _ _ _ _ _ => 2
  | other_type _ _ => 0
  end.

Definition opCount (ts : list Transfer) : nat := sum_list_with transferOps ts.

(** The number of adjustment-history entries recorded in an item, a category
    and a category list. *)
Definition itemHistory (i : Item) : nat :=
  length (or_default [] (item_adjustmentHistory i)).

Definition catHistory (c : Category) : nat :=
  sum_list (itemHistory <$> cat_items c).

Definition docHistory (cats : list Category) : nat :=
  sum_list (catHistory <$> cats).

(** The statement "merging [ts] into the document at [l] leaves that document
    as it was". *)
Definition merge_leaves_input_unchanged
    (h : heap) (l : loc) (ts : list Transfer) : Prop :=
  ∀ r h', mergeTransfers (Some l) (Some ts) h = Returned r h' →
          h' !! l = h !! l.

(** ** Vocabulary: what merging keeps of a document *)

(** [m] is what the merger has made of the item [o]: the item itself, or the
    item with a non-empty list of amounts applied. *)
Definition itemTracks (o m : Item) : Prop :=
  m = o ∨ ∃ amounts, amounts ≠ [] ∧ m = adjusted o amounts.

Definition itemsTrack (o m : list Item) : Prop :=
  ∀ j oi, o !! j = Some oi → ∃ mi, m !! j = Some mi ∧ itemTracks oi mi.

(** The same category, with every item of [o] at its position in [m]. *)
Definition catTracks (o m : Category) : Prop :=
  cat_id m = cat_id o ∧ cat_title m = cat_title o ∧
  cat_color m = cat_color o ∧ itemsTrack (cat_items o) (cat_items m).

(** Every category of [o] at its position in [m]. *)
Definition docTracks (o m : list Category) : Prop :=
  ∀ i oc, o !! i = Some oc → ∃ mc, m !! i = Some mc ∧ catTracks oc mc.


(** ** Vocabulary: the flows of a key *)

(** The amounts a transfer adds to the [deposits], resp. [withdraws],
    accumulator of the key [k]; for a list, in list order. *)
Definition inflow (k : string) (t : Transfer) : list float :=
  match t with
  | deposit c s n a => if decide (getAssetKey c s n = k) then [a] else []
  | move _ _ _ tc ts tn a =>
      if decide (getAssetKey tc ts tn = k) then [a] else []
  | _ => []
  end.

Definition outflow (k : string) (t : Transfer) : list float :=
  match t with
  | withdraw c s n a => if decide (getAssetKey c s n = k) then [a] else []
  | move fc fs fn _ _ _ a =>
      if decide (getAssetKey fc fs fn = k) then [a] else []
  | _ => []
  end.

Definition inflows (k : string) (ts : list Transfer) : list float :=
  ts ≫= inflow k.

Definition outflows (k : string) (ts : list Transfer) : list float :=
  ts ≫= outflow k.

(** A step of the [net] accumulator: [net += a] or [net -= a]. *)
Inductive NetStep := net_add (a : float) | net_sub (a : float).

(** The steps a transfer performs on the [net] accumulator of the key [k]:
    a move subtracts on its from-key before it adds on its to-key. *)
Definition netStep (k : string) (t : Transfer) : list NetStep :=
  match t with
  | deposit c s n a =>
      if decide (getAssetKey c s n = k) then [net_add a] else []
  | withdraw c s n a =>
      if decide (getAssetKey c s n = k) then [net_sub a] else []
  | move fc fs fn tc ts tn a =>
      (if decide (getAssetKey fc fs fn = k) then [net_sub a] else [])
      ++ (if decide (getAssetKey tc ts tn = k) then [net_add a] else [])
  | other_type _ _ => []
  end.

Definition netSteps (k : string) (ts : list Transfer) : list NetStep :=
  ts ≫= netStep k.

Definition runNet (acc : float) (steps : list NetStep) : float :=
  foldl (λ n s, match s with net_add a => n + a | net_sub a => n - a end)
    acc steps.

(** The (category, source, name) triples a transfer is applied to. *)
Definition targets (t : Transfer) : list (string * string * string) :=
  match t with
  | deposit c s n _ | withdraw c s n _ => [(c, s, n)]
  | move fc fs fn tc ts tn _ => [(fc, fs, fn); (tc, ts, tn)]
  | other_type _ _ => []
  end.

(** The statement "every entry of the map has [net = deposits - withdraws]". *)
Definition net_is_deposits_minus_withdraws
    (adjustments : gmap string Adjustment) : Prop :=
  ∀ key a, adjustments !! key = Some a → net a = deposits a - withdraws a.

(** ** Sample data *)

(** Two categories, [0.1] and [0.2; 0.3]. *)
Definition doc_rounding : PortfolioData :=
  mkPortfolioData
    (Some [mkCategory "cash" "Cash" "#68d391" [plainItem "USD" "Bank" 0.1];
           mkCategory "crypto" "Crypto" "#f6ad55"
             [plainItem "BTC" "Binance" 0.2; plainItem "ETH" "Ledger" 0.3]]).

(** Two categories carrying the same identifier. *)
Definition doc_duplicate_category : PortfolioData :=
  mkPortfolioData
    (Some [mkCategory "crypto" "Crypto" "#f6ad55"
             [plainItem "BTC" "Binance" 1];
           mkCategory "crypto" "Crypto (cold)" "#f6ad55"
             [plainItem "ETH" "Ledger" 2]]).

(** Distinct identifiers, one of them [__proto__]. *)
Definition doc_proto_category : PortfolioData :=
  mkPortfolioData
    (Some [mkCategory "__proto__" "Proto" "#f6ad55"
             [plainItem "BTC" "Binance" 5];
           mkCategory "cash" "Cash" "#68d391"
             [plainItem "USD" "Bank" 7]]).

(** One category with one asset, and a heap holding that document at
    reference [1]. *)
Definition doc_btc (val : float) : PortfolioData :=
  mkPortfolioData
    (Some [mkCategory "crypto" "Crypto" "#f6ad55"
             [plainItem "BTC" "Binance" val]]).

Definition heap_btc (val : float) : gmap positive PortfolioData :=
  {[ 1%positive := doc_btc val ]}.

(** Two assets, worth 1000.1 and 2500.2. *)
Definition doc_two_assets : PortfolioData :=
  mkPortfolioData
    (Some [mkCategory "crypto" "Crypto" "#f6ad55"
             [plainItem "BTC" "Binance" 1000.1];
           mkCategory "cash" "Cash" "#68d391"
             [plainItem "USD" "Bank" 2500.2]]).

Definition move_300_3 : Transfer :=
  move "crypto" "Binance" "BTC" "cash" "Bank" "USD" 300.3.

(** One asset key: a deposit of 0.1, a withdrawal of 0.3, a deposit of 0.2. *)
Definition transfers_rounding : list Transfer :=
  [deposit "crypto" "Binance" "BTC" 0.1;
   withdraw "crypto" "Binance" "BTC" 0.3;
   deposit "crypto" "Binance" "BTC" 0.2].

End Double.

(** * Properties *)

(** ** Comparisons *)

Lemma num_gt_true x y : num_gt x y = true ↔ y < x.
Proof.
  unfold num_gt. rewrite negb_true_iff, <- not_true_iff_false, Qle_bool_iff.
  split; [apply Qnot_le_lt | apply Qlt_not_le].
Qed.

Lemma num_gt_false x y : num_gt x y = false ↔ x <= y.
Proof. unfold num_gt. rewrite negb_false_iff. apply Qle_bool_iff. Qed.

Lemma num_le_true x y : num_le x y = true ↔ x <= y.
Proof. apply Qle_bool_iff. Qed.

Lemma num_le_false x y : num_le x y = false ↔ y < x.
Proof.
  unfold num_le. rewrite <- not_true_iff_false, Qle_bool_iff.
  split; [apply Qnot_le_lt | apply Qlt_not_le].
Qed.

Lemma num_eq_true x y : num_eq x y = true ↔ x == y.
Proof. apply Qeq_bool_iff. Qed.

Lemma num_eq_false x y : num_eq x y = false ↔ ¬ x == y.
Proof. unfold num_eq. rewrite <- not_true_iff_false, Qeq_bool_iff. tauto. Qed.

(** ** Asset keys *)

Example getAssetKey_example :
  getAssetKey "Crypto" "Google  Token" "BTC x" = "crypto_google_token_btc_x".
Proof. reflexivity. Qed.

Example getAssetKey_btc : getAssetKey "crypto" "Binance" "BTC" = key_btc.
Proof. reflexivity. Qed.

(** ** Performance calculator *)

Lemma perf_step_foldl ts d0 w0 :
  foldl perf_step (d0, w0) ts
  = (foldl Qplus d0 (depositAmounts ts), foldl Qplus w0 (withdrawAmounts ts)).
Proof.
  revert d0 w0. induction ts as [|t ts IH]; intros d0 w0; [done|].
  destruct t; simpl; apply IH.
Qed.

Lemma calculatePerformance_unfold s e ts :
  calculatePerformance s e (Some ts) false
  = let d := depositSum ts in
    let w := withdrawSum ts in
    let profit := e - (s + (d - w)) in
    mkPerformance s e d w (d - w) profit
      (if num_gt (s + d) (1 # 100) then (profit / (s + d)) * 100
       else if num_gt profit 0 then 100 else 0).
Proof.
  unfold calculatePerformance. rewrite perf_step_foldl. reflexivity.
Qed.

(** C2. With the first-month flag set, [calculatePerformance] ignores the
    start balance and the transfers: profit and yield are 0, the start
    balance is reported as 0, and the whole end balance is the deposit total
    and the net flow. *)
Theorem calculatePerformance_zero_kilometer
    (s e : Q) (ts : option (list Transfer)) :
  let p := calculatePerformance s e ts true in
  profit p = 0 ∧ yieldPercent p = 0 ∧ startBalance p = 0 ∧
  totalDeposits p = e ∧ netFlow p = e ∧
  totalWithdraws p = 0 ∧ endBalance p = e.
Proof. by cbn. Qed.

(** C3. Without the first-month flag, for a transfer list with deposit sum
    [d] and withdraw sum [w]: net flow is [d - w], profit is
    [e - (s + (d - w))], and with invested capital [s + d] the yield is
    [profit / (s + d) * 100] when [s + d > 0.01], [100] when
    [s + d <= 0.01] and the profit is positive, and [0] otherwise.  At
    s=1000, d=200, w=50, e=1200 this gives net flow 150, profit 50, invested
    capital 1200 and a yield of 25/6, which is 4.17 to two decimals. *)
Theorem calculatePerformance_normal (s e : Q) (ts : list Transfer) :
  let d := depositSum ts in
  let w := withdrawSum ts in
  let investedCapital := s + d in
  let p := calculatePerformance s e (Some ts) false in
  totalDeposits p = d ∧ totalWithdraws p = w ∧
  netFlow p = d - w ∧
  profit p = e - (s + (d - w)) ∧
  ((1 # 100) < investedCapital →
     yieldPercent p = (profit p / investedCapital) * 100) ∧
  (investedCapital <= (1 # 100) → 0 < profit p → yieldPercent p = 100) ∧
  (investedCapital <= (1 # 100) → profit p <= 0 → yieldPercent p = 0) ∧
  (s == 1000 → d == 200 → w == 50 → e == 1200 →
     netFlow p == 150 ∧ profit p == 50 ∧ investedCapital == 1200 ∧
     yieldPercent p == (25 # 6) ∧
     (417 # 100) - (5 # 1000) < yieldPercent p ∧
     yieldPercent p < (417 # 100) + (5 # 1000)).
Proof.
  intros d w ic p. subst p. rewrite calculatePerformance_unfold. cbn.
  fold d w ic.
  assert (Hy1 : (1 # 100) < ic →
    (if num_gt ic (1 # 100) then (e - (s + (d - w))) / ic * 100
     else if num_gt (e - (s + (d - w))) 0 then 100 else 0)
    = (e - (s + (d - w))) / ic * 100).
  { intros H. apply num_gt_true in H. by rewrite H. }
  repeat split; try done.
  - intros H Hp. apply num_gt_false in H. apply num_gt_true in Hp.
    by rewrite H, Hp.
  - intros H Hp. apply num_gt_false in H. apply num_gt_false in Hp.
    by rewrite H, Hp.
  - lra.
  - lra.
  - unfold ic. lra.
  - rewrite Hy1 by (unfold ic; lra). unfold ic.
    rewrite H, H0, H1, H2. reflexivity.
  - rewrite Hy1 by (unfold ic; lra). unfold ic.
    rewrite H, H0, H1, H2. reflexivity.
  - rewrite Hy1 by (unfold ic; lra). unfold ic.
    rewrite H, H0, H1, H2. reflexivity.
Qed.

Lemma calculatePerformance_normal_witness :
  let p := calculatePerformance 1000 1200
             (Some [deposit "cash" "bank" "usd" 200;
                    withdraw "cash" "bank" "usd" 50]) false in
  netFlow p == 150 ∧ profit p == 50 ∧ yieldPercent p == (25 # 6).
Proof.
  destruct (calculatePerformance_normal 1000 1200
              [deposit "cash" "bank" "usd" 200;
               withdraw "cash" "bank" "usd" 50])
    as (_ & _ & _ & _ & _ & _ & _ & H).
  destruct H as (H1 & H2 & _ & H3 & _); [reflexivity ..|].
  exact (conj H1 (conj H2 H3)).
Defined.

(** ** Delta with adjusted start *)

(** C5. [calculateDelta] returns [adjustedStart = p + a],
    [delta = c - adjustedStart], and [percent = delta / adjustedStart * 100]
    when [adjustedStart > 0], [0] otherwise.  An asset absent before, now
    worth 300 and funded by a deposit of 300, has [adjustedStart = 300] and
    [percent = 0]. *)
Theorem calculateDelta_spec (c p a : Q) :
  let r := calculateDelta c p a in
  adjustedStart r = p + a ∧
  delta r = c - adjustedStart r ∧
  previousVal r = p ∧ currentVal r = c ∧
  (0 < adjustedStart r → percent r = (delta r / adjustedStart r) * 100) ∧
  (adjustedStart r <= 0 → percent r = 0) ∧
  (c == 300 → p == 0 → a == 300 →
     adjustedStart r == 300 ∧ delta r == 0 ∧ percent r == 0).
Proof.
  cbn. repeat split.
  - intros H. apply num_gt_true in H. by rewrite H.
  - intros H. apply num_gt_false in H. rewrite H. by destruct (_ && _).
  - lra.
  - lra.
  - assert (Hpos : num_gt (p + a) 0 = true) by (apply num_gt_true; lra).
    rewrite Hpos, H, H0, H1. reflexivity.
Qed.

Lemma calculateDelta_spec_witness :
  adjustedStart (calculateDelta 300 0 300) == 300 ∧
  percent (calculateDelta 300 0 300) == 0.
Proof.
  destruct (calculateDelta_spec 300 0 300) as (_ & _ & _ & _ & _ & _ & H).
  destruct H as (H1 & _ & H2); [reflexivity ..|].
  exact (conj H1 H2).
Defined.

(** ** Annual projection *)

(** C9. For [monthsPassed > 0], [calculateProjectedAnnual] returns
    [(1 + ytd)^(12 / monthsPassed) - 1] when [1 + ytd > 0] and exactly [-1]
    when [1 + ytd <= 0]; in particular it returns [-1] at [ytd = -1.5],
    [monthsPassed = 6], whatever the power function computes. *)
Theorem calculateProjectedAnnual_spec
    (Math_pow : Q → Q → Q) (ytd monthsPassed : Q) :
  0 < monthsPassed →
  (0 < 1 + ytd →
     calculateProjectedAnnual Math_pow ytd monthsPassed
     = Math_pow (1 + ytd) (12 / monthsPassed) - 1) ∧
  (1 + ytd <= 0 →
     calculateProjectedAnnual Math_pow ytd monthsPassed = - (1)) ∧
  calculateProjectedAnnual Math_pow (- (15 # 10)) 6 = - (1).
Proof.
  intros Hm. apply num_le_false in Hm. unfold calculateProjectedAnnual.
  rewrite Hm. repeat split.
  - intros H. apply num_le_false in H. by rewrite H.
  - intros H. apply num_le_true in H. by rewrite H.
Qed.

Lemma calculateProjectedAnnual_spec_witness :
  calculateProjectedAnnual pow_floor (21 # 100) 6
  = pow_floor (1 + (21 # 100)) (12 / 6) - 1 ∧
  calculateProjectedAnnual pow_floor (- (15 # 10)) 6 = - (1).
Proof.
  destruct (calculateProjectedAnnual_spec pow_floor (21 # 100) 6) as (H1 & _ & H2);
    [reflexivity|].
  split; [apply H1; reflexivity | exact H2].
Defined.

(** ** Comparator *)

Lemma fillKeys_foldl_lookup {V} (f : string → V) keys (m : gmap string V) k :
  foldl (λ acc k, <[k := f k]> acc) m keys !! k
  = if decide (k ∈ keys) then Some (f k) else m !! k.
Proof.
  revert m. induction keys as [|k' keys IH]; intros m; cbn [foldl].
  - rewrite decide_False; [done | apply not_elem_of_nil].
  - rewrite IH. destruct (decide (k ∈ keys)) as [Hin|Hin].
    + rewrite decide_True; [done | by apply list_elem_of_further].
    + destruct (decide (k = k')) as [->|Hne].
      * rewrite decide_True; [apply lookup_insert_eq | apply list_elem_of_here].
      * rewrite decide_False; [by apply lookup_insert_ne|].
        intros [?|?]%elem_of_cons; congruence.
Qed.

Lemma fillKeys_lookup {V} (f : string → V) keys k :
  fillKeys f keys !! k = if decide (k ∈ keys) then Some (f k) else None.
Proof. unfold fillKeys. by rewrite fillKeys_foldl_lookup, lookup_empty. Qed.

Lemma compareSnapshots_assets_lookup cur prev adj key :
  cmp_assets (compareSnapshots cur prev adj) !! key
  = if decide (is_Some (assetIn (Some cur) key) ∨ is_Some (assetIn prev key))
    then Some (compareAsset cur prev adj key) else None.
Proof.
  unfold compareSnapshots; cbn. rewrite fillKeys_lookup.
  assert (key ∈ elements (dom (snap_assetMap cur)
                          ∪ dom (or_default ∅ (snap_assetMap <$> prev)))
          ↔ is_Some (assetIn (Some cur) key) ∨ is_Some (assetIn prev key))
    as Hiff.
  { rewrite elem_of_elements, elem_of_union, !elem_of_dom.
    destruct prev as [p|]; cbn; [done|].
    rewrite lookup_empty. done. }
  destruct (decide (key ∈ _)), (decide (_ ∨ _)); tauto.
Qed.

Lemma compareSnapshots_categories_lookup cur prev adj catId :
  cmp_categories (compareSnapshots cur prev adj) !! catId
  = if decide (is_Some (categoryIn (Some cur) catId)
               ∨ is_Some (categoryIn prev catId))
    then Some (compareCategory cur prev adj catId) else None.
Proof.
  unfold compareSnapshots; cbn. rewrite fillKeys_lookup.
  assert (catId ∈ elements (dom (snap_categories cur)
                            ∪ dom (or_default ∅ (snap_categories <$> prev)))
          ↔ is_Some (categoryIn (Some cur) catId)
            ∨ is_Some (categoryIn prev catId))
    as Hiff.
  { rewrite elem_of_elements, elem_of_union, !elem_of_dom.
    destruct prev as [p|]; cbn; [done|].
    rewrite lookup_empty. done. }
  destruct (decide (catId ∈ _)), (decide (_ ∨ _)); tauto.
Qed.

(** The [if]/[else if] chain read as a decision table. *)
Lemma statusOf_spec cv pv (previous : option AssetData) :
  let st := statusOf cv pv previous in
  let c_new := 0 < cv ∧ previous = None in
  let c_ghost := cv == 0 ∧ 0 < pv in
  let c_hidden := cv == 0 ∧ pv == 0 in
  (st = status_new ↔ c_new) ∧
  (st = status_ghost ↔ ¬ c_new ∧ c_ghost) ∧
  (st = status_hidden ↔ ¬ c_new ∧ ¬ c_ghost ∧ c_hidden) ∧
  (st = status_normal ↔ ¬ c_new ∧ ¬ c_ghost ∧ ¬ c_hidden).
Proof.
  cbn. unfold statusOf.
  destruct (num_gt cv 0) eqn:Hc;
    [apply num_gt_true in Hc | apply num_gt_false in Hc];
  (destruct (bool_decide (previous = None)) eqn:Hp;
    [apply bool_decide_eq_true in Hp | apply bool_decide_eq_false in Hp]);
  (destruct (num_eq cv 0) eqn:Hc0;
    [apply num_eq_true in Hc0 | apply num_eq_false in Hc0]);
  (destruct (num_gt pv 0) eqn:Hp1;
    [apply num_gt_true in Hp1 | apply num_gt_false in Hp1]);
  (destruct (num_eq pv 0) eqn:Hp0;
    [apply num_eq_true in Hp0 | apply num_eq_false in Hp0]);
  cbn; repeat split; intros; try discriminate; try tauto;
  try (exfalso; lra); try (intuition lra).
Qed.

(** C6. Every asset key of either snapshot gets one comparison record, whose
    status follows the precedence new / ghost / hidden / normal, so the four
    statuses partition the keys; keys of neither snapshot get no record.  An
    asset previously 500 and now 0 with no transfers is a ghost with delta
    -500 and percent -100. *)
Theorem compareSnapshots_status
    (cur : Snapshot) (prev : option Snapshot)
    (adjustments : gmap string Adjustment) (key : string) :
  let cv := valIn (Some cur) key in
  let pv := valIn prev key in
  let previous := assetIn prev key in
  let c_new := 0 < cv ∧ previous = None in
  let c_ghost := cv == 0 ∧ 0 < pv in
  let c_hidden := cv == 0 ∧ pv == 0 in
  let assets := cmp_assets (compareSnapshots cur prev adjustments) in
  (is_Some (assetIn (Some cur) key) ∨ is_Some previous →
   ∃ r, assets !! key = Some r ∧
        ac_info r = calculateDelta cv pv (netOf adjustments key) ∧
        (ac_status r = status_new ↔ c_new) ∧
        (ac_status r = status_ghost ↔ ¬ c_new ∧ c_ghost) ∧
        (ac_status r = status_hidden ↔ ¬ c_new ∧ ¬ c_ghost ∧ c_hidden) ∧
        (ac_status r = status_normal ↔ ¬ c_new ∧ ¬ c_ghost ∧ ¬ c_hidden) ∧
        (pv == 500 → cv == 0 → netOf adjustments key == 0 →
           ac_status r = status_ghost ∧
           delta (ac_info r) == - (500) ∧ percent (ac_info r) == - (100))) ∧
  (assetIn (Some cur) key = None → previous = None → assets !! key = None).
Proof.
  intros cv pv previous c_new c_ghost c_hidden assets. subst assets.
  rewrite compareSnapshots_assets_lookup. split.
  - intros Hin. rewrite decide_True by done.
    eexists; split; [reflexivity|].
    destruct (statusOf_spec cv pv previous) as (Hn & Hg & Hh & Ho).
    split; [reflexivity|]. do 4 (split; [assumption|]).
    intros Hpv Hcv Hadj. split.
    + apply Hg. unfold c_new, c_ghost. split; lra.
    + change (ac_info (compareAsset cur prev adjustments key))
        with (calculateDelta cv pv (netOf adjustments key)).
      cbn. assert (Hpos : num_gt (pv + netOf adjustments key) 0 = true)
        by (apply num_gt_true; lra).
      rewrite Hpos, Hpv, Hcv, Hadj. split; reflexivity.
  - intros Hc Hp. rewrite decide_False; [done|].
    rewrite Hc. fold previous. rewrite Hp. intros [[? ?]|[? ?]]; discriminate.
Qed.

(** ** Category-level adjustment *)

Lemma catAdjustment_foldl catId (l : list (string * Adjustment)) acc :
  foldl (λ acc (e : string * Adjustment),
           if startsWith e.1 (catId +:+ "_") then acc + net e.2 else acc)
        acc l
  = foldl Qplus acc
      ((λ e : string * Adjustment, net e.2) <$>
       filter (λ e : string * Adjustment,
                 startsWith e.1 (catId +:+ "_") = true) l).
Proof.
  revert acc. induction l as [|e l IH]; intros acc; [done|].
  cbn [foldl]. rewrite IH.
  destruct (startsWith e.1 (catId +:+ "_")) eqn:He.
  - by rewrite filter_cons_True.
  - rewrite filter_cons_False; [done|]. by rewrite He.
Qed.

Lemma catAdjustment_prefixedNetSum catId adjustments :
  catAdjustment catId adjustments = prefixedNetSum catId adjustments.
Proof. apply catAdjustment_foldl. Qed.

(** [startsWith] is the prefix test on strings. *)
Lemma startsWith_spec key p :
  startsWith key p = true ↔ ∃ rest, key = p +:+ rest.
Proof.
  unfold startsWith. revert key. induction p as [|c p IH]; intros key.
  - destruct key; cbn; split; eauto.
  - destruct key as [|c' key]; cbn.
    + split; [discriminate | intros [rest H]; cbn in H; discriminate].
    + destruct (Ascii.ascii_dec c c') as [->|Hne].
      * rewrite IH. split; intros [rest H]; exists rest; cbn in *;
          [by rewrite H | by injection H].
      * split; [discriminate | intros [rest H]; injection H; congruence].
Qed.

(** The identifier is compared as stored, the keys are case-folded: an
    identifier with an upper-case letter matches none of its own keys. *)
Example catAdjustment_case_sensitive :
  let adjustments :=
    getAdjustmentsPerAsset (Some [deposit "Crypto" "Binance" "BTC" 200])
      (Some (doc_btc 0)) in
  catAdjustment "Crypto" adjustments = 0 ∧
  catAdjustment "crypto" adjustments == 200.
Proof. vm_compute. done. Qed.

(** C8. For a category identifier of either snapshot, the category record is
    [calculateDelta] of the two category totals with, as adjustment, the sum
    of the net adjustments of exactly those keys of the adjustment map that
    start with the identifier followed by ["_"]. *)
Theorem compareSnapshots_category_adjustment
    (cur : Snapshot) (prev : option Snapshot)
    (adjustments : gmap string Adjustment) (catId : string) :
  is_Some (categoryIn (Some cur) catId) ∨ is_Some (categoryIn prev catId) →
  cmp_categories (compareSnapshots cur prev adjustments) !! catId
  = Some (calculateDelta (totalIn (Some cur) catId) (totalIn prev catId)
            (prefixedNetSum catId adjustments)) ∧
  ∀ key a, (key, a) ∈ filter (λ e : string * Adjustment,
                                startsWith e.1 (catId +:+ "_") = true)
                             (map_to_list adjustments)
           ↔ adjustments !! key = Some a ∧
             ∃ rest, key = (catId +:+ "_") +:+ rest.
Proof.
  intros Hin. split.
  - rewrite compareSnapshots_categories_lookup, decide_True by done.
    unfold compareCategory. by rewrite catAdjustment_prefixedNetSum.
  - intros key a. rewrite list_elem_of_filter, elem_of_map_to_list.
    cbn [fst snd]. rewrite startsWith_spec. tauto.
Qed.

Lemma compareSnapshots_status_witness :
  ∃ r, cmp_assets (compareSnapshots (buildSnapshot (Some (doc_btc 0)) [])
                     (Some (buildSnapshot (Some (doc_btc 500)) [])) ∅)
         !! key_btc = Some r ∧
       ac_status r = status_ghost ∧
       delta (ac_info r) == - (500) ∧ percent (ac_info r) == - (100).
Proof.
  destruct (compareSnapshots_status (buildSnapshot (Some (doc_btc 0)) [])
              (Some (buildSnapshot (Some (doc_btc 500)) [])) ∅ key_btc)
    as [H _].
  destruct H as (r & Hr & _ & _ & _ & _ & _ & Hsc).
  { left. vm_compute. eexists. reflexivity. }
  exists r. split; [exact Hr|]. apply Hsc; vm_compute; reflexivity.
Defined.

Lemma compareSnapshots_category_adjustment_witness :
  cmp_categories
    (compareSnapshots (buildSnapshot (Some (doc_btc 800)) [])
       (Some (buildSnapshot (Some (doc_btc 500)) []))
       (getAdjustmentsPerAsset
          (Some [deposit "crypto" "Binance" "BTC" 200;
                 deposit "cash" "Bank" "USD" 70])
          (Some (doc_btc 800))))
    !! "crypto"
  = Some (calculateDelta 800 500 200).
Proof.
  destruct (compareSnapshots_category_adjustment
              (buildSnapshot (Some (doc_btc 800)) [])
              (Some (buildSnapshot (Some (doc_btc 500)) []))
              (getAdjustmentsPerAsset
                 (Some [deposit "crypto" "Binance" "BTC" 200;
                        deposit "cash" "Bank" "USD" 70])
                 (Some (doc_btc 800)))
              "crypto") as [H _].
  { left. vm_compute. eexists. reflexivity. }
  rewrite H. vm_compute. reflexivity.
Defined.

(** ** Transfer merger: effect on the heap *)

Lemma applyTransferOperation_run (h : heap) l cats c s n amount :
  h !! l = Some (mkPortfolioData (Some cats)) →
  applyTransferOperation l c s n amount h
  = Returned ()
      (<[l := mkPortfolioData (Some (applyToPortfolio cats c s n amount))]> h).
Proof. intros Hl. unfold applyTransferOperation. by rewrite Hl. Qed.

Lemma merge_step_run (h : heap) l cats t :
  h !! l = Some (mkPortfolioData (Some cats)) →
  merge_step l t h
  = Returned () (<[l := mkPortfolioData (Some (stepCats cats t))]> h).
Proof.
  intros Hl. destruct t; cbn [merge_step stepCats].
  - by apply applyTransferOperation_run.
  - by apply applyTransferOperation_run.
  - unfold mbind, M_bind.
    rewrite (applyTransferOperation_run h l cats) by done.
    erewrite applyTransferOperation_run by apply lookup_insert_eq.
    by rewrite insert_insert_eq.
  - unfold mret, M_ret. by rewrite insert_id.
Qed.

Lemma forEach_merge_step_run ts (h : heap) l cats :
  h !! l = Some (mkPortfolioData (Some cats)) →
  forEach ts (merge_step l) h
  = Returned () (<[l := mkPortfolioData (Some (mergeCats cats ts))]> h).
Proof.
  revert h cats. induction ts as [|t ts IH]; intros h cats Hl.
  - cbn. unfold mret, M_ret. by rewrite insert_id.
  - cbn [forEach]. unfold mbind, M_bind.
    rewrite (merge_step_run h l cats) by done.
    erewrite IH by apply lookup_insert_eq.
    by rewrite insert_insert_eq.
Qed.

(** What [mergeTransfers] does, case by case: it returns the reference it
    was given, and the heap differs at most at that reference, where the
    category list has become [mergeCats]. *)
Lemma mergeTransfers_run (h : heap) p transfers :
  mergeTransfers p transfers h
  = Returned p
      (match p, transfers with
       | Some l, Some ts =>
           match h !! l ≫= portfolio with
           | Some cats => <[l := mkPortfolioData (Some (mergeCats cats ts))]> h
           | None => h
           end
       | _, _ => h
       end).
Proof.
  destruct transfers as [[|t ts]|], p as [l|]; try done.
  - cbn. destruct (h !! l) as [[[cats|]]|] eqn:Hl; cbn; try done.
    by rewrite insert_id.
  - unfold mergeTransfers.
    destruct (h !! l) as [[[cats|]]|] eqn:Hl; cbn [mbind option_bind portfolio];
      try done.
    unfold mbind at 1, M_bind.
    by rewrite (forEach_merge_step_run (t :: ts) h l cats).
Qed.


(** * Further properties *)

(** ** Simple yield *)

Lemma simple_step_perf_step acc t : simple_step acc t = perf_step acc t.
Proof. by destruct t. Qed.

Lemma simple_step_foldl ts acc :
  foldl simple_step acc ts = foldl perf_step acc ts.
Proof.
  revert acc. induction ts as [|t ts IH]; intros acc; [done|].
  cbn [foldl]. by rewrite simple_step_perf_step, IH.
Qed.

(** X1. Outside the first month, the yield percentage shown by the
    performance calculator is one hundred times the simple yield the forecast
    engine computes from the same balances and transfers, on every branch
    (regular, zero-capital sentinel, zero). *)
Theorem calculatePerformance_yield_is_simple_yield
    (s e : Q) (transfers : option (list Transfer)) :
  yieldPercent (calculatePerformance s e transfers false)
  == calculateSimpleYield s e transfers * 100.
Proof.
  unfold calculatePerformance, calculateSimpleYield.
  assert (match transfers with
          | Some ts => foldl simple_step (0, 0) ts
          | None => (0, 0)
          end
          = match transfers with
            | Some ts => foldl perf_step (0, 0) ts
            | None => (0, 0)
            end) as ->.
  { destruct transfers; [apply simple_step_foldl | done]. }
  destruct (match transfers with Some ts => _ | None => _ end) as [d w].
  cbn [yieldPercent].
  destruct (num_gt (s + d) (1 # 100)) eqn:Hic.
  - apply num_gt_true in Hic.
    assert (num_le (s + d) (1 # 100) = false) as -> by (apply num_le_false; lra).
    reflexivity.
  - apply num_gt_false in Hic.
    assert (num_le (s + d) (1 # 100) = true) as -> by (by apply num_le_true).
    destruct (num_gt _ 0); reflexivity.
Qed.

(** ** Year-to-date compounding *)





(** ** Bounds on the delta percentage *)


(** ** Merging creates no duplicates *)

Lemma applyToItems_pairs items source assetName amount :
  let pair := λ i : Item, (item_name i, item_source i) in
  (pair <$> applyToItems items source assetName amount = pair <$> items) ∨
  (((assetName, source) ∉ (pair <$> items)) ∧
   pair <$> applyToItems items source assetName amount
   = (pair <$> items) ++ [(assetName, source)]).
Proof.
  intros pair. unfold applyToItems.
  destruct (list_find _ items) as [[k asset]|] eqn:Hfind.
  - left. apply list_find_Some in Hfind as (Hk & _ & _).
    rewrite list_fmap_insert. apply list_insert_id.
    by rewrite list_lookup_fmap, Hk.
  - right. apply list_find_None in Hfind. split.
    + intros [i [[= Hn Hs] Hi]]%list_elem_of_fmap.
      by apply (proj1 (Forall_forall _ _) Hfind i Hi).
    + by rewrite fmap_app.
Qed.

Lemma applyToItems_NoDup items source assetName amount :
  NoDup ((λ i, (item_name i, item_source i)) <$> items) →
  NoDup ((λ i, (item_name i, item_source i))
           <$> applyToItems items source assetName amount).
Proof.
  intros Hnd.
  destruct (applyToItems_pairs items source assetName amount)
    as [->|[Hfresh ->]]; [done|].
  apply NoDup_app. split; [done|]. split; [|apply NoDup_singleton].
  intros p Hp ->%list_elem_of_singleton. done.
Qed.

Lemma applyToPortfolio_ids cats categoryId source assetName amount :
  (cat_id <$> applyToPortfolio cats categoryId source assetName amount
   = cat_id <$> cats) ∨
  ((categoryId ∉ (cat_id <$> cats)) ∧
   cat_id <$> applyToPortfolio cats categoryId source assetName amount
   = (cat_id <$> cats) ++ [categoryId]).
Proof.
  unfold applyToPortfolio.
  destruct (list_find _ cats) as [[k category]|] eqn:Hfind.
  - left. apply list_find_Some in Hfind as (Hk & _ & _).
    rewrite list_fmap_insert. apply list_insert_id.
    by rewrite list_lookup_fmap, Hk.
  - right. apply list_find_None in Hfind. split.
    + intros [c [Hc Hin]]%list_elem_of_fmap.
      by apply (proj1 (Forall_forall _ _) Hfind c Hin).
    + by rewrite fmap_app.
Qed.

Lemma applyToPortfolio_ids_NoDup cats categoryId source assetName amount :
  NoDup (cat_id <$> cats) →
  NoDup (cat_id <$> applyToPortfolio cats categoryId source assetName amount).
Proof.
  intros Hids.
  destruct (applyToPortfolio_ids cats categoryId source assetName amount)
    as [->|[Hfresh ->]]; [done|].
  apply NoDup_app. split; [done|]. split; [|apply NoDup_singleton].
  intros p Hp ->%list_elem_of_singleton. done.
Qed.

Lemma applyToPortfolio_wellKeyed cats categoryId source assetName amount :
  wellKeyed cats →
  wellKeyed (applyToPortfolio cats categoryId source assetName amount).
Proof.
  intros [Hids Hitems]. split.
  - by apply applyToPortfolio_ids_NoDup.
  - unfold applyToPortfolio.
    destruct (list_find _ cats) as [[k category]|] eqn:Hfind.
    + apply list_find_Some in Hfind as (Hk & _ & _).
      apply Forall_insert; [done|]. cbn [withItems cat_items].
      apply applyToItems_NoDup.
      exact (Forall_lookup_1 _ cats k category Hitems Hk).
    + apply Forall_app. split; [done|]. apply Forall_singleton.
      cbn [cat_items]. apply applyToItems_NoDup. constructor.
Qed.

Lemma mergeCats_wellKeyed ts cats :
  wellKeyed cats → wellKeyed (mergeCats cats ts).
Proof.
  unfold mergeCats. revert cats.
  induction ts as [|t ts IH]; intros cats Hwk; [done|].
  cbn [foldl]. apply IH.
  destruct t; cbn [stepCats]; auto using applyToPortfolio_wellKeyed.
Qed.

(** X11. Merging creates no duplicates: when the category identifiers of the
    document are pairwise distinct, and the (name, source) pairs of the items
    of each category too, the same holds of the merged document. *)
Theorem mergeTransfers_wellKeyed
    (h : heap) (l : loc) (cats : list Category)
    (transfers : option (list Transfer)) :
  h !! l = Some (mkPortfolioData (Some cats)) →
  wellKeyed cats →
  ∃ h' cats',
    mergeTransfers (Some l) transfers h = Returned (Some l) h' ∧
    h' !! l = Some (mkPortfolioData (Some cats')) ∧
    wellKeyed cats'.
Proof.
  intros Hl Hwk. rewrite mergeTransfers_run.
  destruct transfers as [ts|].
  - rewrite Hl. cbn [mbind option_bind portfolio].
    eexists _, (mergeCats cats ts). split; [done|].
    split; [apply lookup_insert_eq | by apply mergeCats_wellKeyed].
  - by exists h, cats.
Qed.

Lemma mergeTransfers_wellKeyed_witness :
  ∃ h' cats',
    mergeTransfers (Some 1%positive)
      (Some [move "crypto" "Binance" "BTC" "cash" "Bank" "USD" 50;
             deposit "cash" "Bank" "USD" 10])
      (heap_btc 500)
    = Returned (Some 1%positive) h' ∧
    h' !! 1%positive = Some (mkPortfolioData (Some cats')) ∧
    wellKeyed cats'.
Proof.
  apply (mergeTransfers_wellKeyed (heap_btc 500) 1%positive
           [mkCategory "crypto" "Crypto" "#f6ad55"
              [plainItem "BTC" "Binance" 500]]).
  - reflexivity.
  - split; repeat constructor; apply not_elem_of_nil.
Defined.

(** ** Forecast: the statistics of the year *)

Lemma yearStep_run cur isFirst st item (h : heap) :
  ∃ h', yearStep cur isFirst st item h
        = Returned (yearStepIn h cur isFirst st item) h' ∧
        ∀ l d, h !! l = Some d → h' !! l = Some d.
Proof.
  unfold yearStep, yearStepIn.
  destruct (deref h (me_data item)) as [d|]; [|by exists h].
  unfold mbind, M_bind, deepCopy, readTotalBalance, mret, M_ret.
  set (l := fresh (dom h)).
  assert (Hl : h !! l = None).
  { apply not_elem_of_dom. apply is_fresh. }
  rewrite mergeTransfers_run.
  eexists. split.
  - f_equal. f_equal. cbn [deref mbind option_bind]. unfold virtualBalance.
    rewrite lookup_insert_eq. cbn [mbind option_bind].
    destruct (me_transfers item) as [ts|]; [|by rewrite lookup_insert_eq].
    destruct d as [[cats|]]; cbn [portfolio];
      by rewrite lookup_insert_eq.
  - intros l0 d0 Hl0.
    assert (l ≠ l0) by congruence.
    destruct (me_transfers item) as [ts|];
      [destruct (_ ≫= portfolio)|]; by rewrite ?lookup_insert_ne.
Qed.

Lemma yearLoop_frame cur sequence isFirst st (h : heap) :
  ∃ st' h', yearLoop cur isFirst sequence st h = Returned st' h' ∧
            ∀ l d, h !! l = Some d → h' !! l = Some d.
Proof.
  revert isFirst st h.
  induction sequence as [|item rest IH]; intros isFirst st h.
  - by exists st, h.
  - cbn [yearLoop]. unfold mbind at 1, M_bind at 1.
    destruct (yearStep_run cur isFirst st item h) as (h1 & -> & Hf1).
    destruct (IH false (yearStepIn h cur isFirst st item) h1)
      as (st' & h' & -> & Hf).
    exists st', h'. split; [done|]. auto.
Qed.

(** X13. [calculateYearStats] always returns and leaves every document that
    exists when it is called as it was: the transfers are merged into copies.
    On an empty sequence all six statistics are 0. *)
Theorem calculateYearStats_frame
    (Math_pow : Q → Q → Q) (cur : string) (sequence : list MonthEntry)
    (h : heap) :
  (∃ stats h',
     calculateYearStats Math_pow cur sequence h = Returned stats h' ∧
     ∀ l d, h !! l = Some d → h' !! l = Some d) ∧
  calculateYearStats Math_pow cur [] h = Returned (mkYearStats 0 0 0 0 0 0) h.
Proof.
  split; [|reflexivity].
  unfold calculateYearStats, mbind, M_bind.
  destruct (yearLoop_frame cur sequence true (mkYearLoop [] 0 0 0 0) h)
    as (st & h' & -> & Hf).
  eexists _, h'. split; [reflexivity | exact Hf].
Qed.


(** X16. The zero-kilometre rule is tied to the first position, not to the
    first month that has data: when the first month of the sequence has no
    document, the next month is computed from a start balance of 0, so with
    a positive balance and no transfers its whole balance is profit and its
    yield is the sentinel 1 (100%). *)
Theorem calculateYearStats_missing_first_month
    (Math_pow : Q → Q → Q) (jan feb : MonthEntry) (d : PortfolioData)
    (h : heap) :
  deref h (me_data jan) = None →
  deref h (me_data feb) = Some d →
  me_id jan ≠ me_id feb →
  me_transfers feb = Some [] →
  0 < calculateTotalBalance (Some d) →
  ∃ stats h',
    calculateYearStats Math_pow (me_id feb) [jan; feb] h
    = Returned stats h' ∧
    ys_monthYield stats = 1 ∧
    ys_monthProfit stats == calculateTotalBalance (Some d) ∧
    ys_ytd stats == 1 ∧
    ys_ytdProfit stats == calculateTotalBalance (Some d).
Proof.
  intros Hjan Hfeb Hne Hts Hpos.
  unfold calculateYearStats. unfold mbind at 1, M_bind at 1.
  cbn [yearLoop]. unfold mbind at 1 2, M_bind at 1 2.
  destruct (yearStep_run (me_id feb) true (mkYearLoop [] 0 0 0 0) jan h)
    as (h1 & -> & Hf1).
  destruct (yearStep_run (me_id feb) false
              (yearStepIn h (me_id feb) true (mkYearLoop [] 0 0 0 0) jan)
              feb h1) as (h2 & -> & _).
  eexists _, h2. split; [reflexivity|].
  assert (Hfeb1 : deref h1 (me_data feb) = Some d).
  { destruct (me_data feb) as [l|]; [|done]. cbn in *. by apply Hf1. }
  assert (Hst1 : yearStepIn h (me_id feb) true (mkYearLoop [] 0 0 0 0) jan
                 = mkYearLoop [0] 0 0 0 0).
  { unfold yearStepIn. by rewrite Hjan. }
  rewrite Hst1.
  set (E := calculateTotalBalance (Some d)) in *.
  assert (Hst2 : yearStepIn h1 (me_id feb) false (mkYearLoop [0] 0 0 0 0) feb
                 = mkYearLoop [0; 1] 1 (E - (0 + (0 - 0))) E (0 + (0 - 0))).
  { unfold yearStepIn. rewrite Hfeb1, Hts.
    assert (virtualBalance d (Some []) = E) as ->
      by (unfold E; by destruct d as [[cats|]]).
    unfold yearUpdate, calculateSimpleYield. rewrite Hts.
    cbn [foldl yl_prevBalance yl_accumulatedNetFlow yl_yields
         yl_currentMonthYield yl_currentMonthProfit].
    rewrite bool_decide_eq_true_2 by done.
    assert (num_le (0 + 0) (1 # 100) = true) as -> by reflexivity.
    assert (num_gt (E - (0 + (0 - 0))) 0 = true) as ->
      by (apply num_gt_true; lra).
    reflexivity. }
  rewrite Hst2. clearbody E.
  cbn [ys_monthYield ys_monthProfit ys_ytd ys_ytdProfit yl_yields
       yl_currentMonthYield yl_currentMonthProfit yl_prevBalance
       yl_accumulatedNetFlow].
  split; [done|]. split; [lra|]. split; [reflexivity | lra].
Qed.


Lemma calculateYearStats_missing_first_month_witness :
  ∃ stats h',
    calculateYearStats pow_floor "2026-02"
      [entry_jan_missing; entry_feb_plain] heap_year
    = Returned stats h' ∧
    ys_monthYield stats = 1 ∧
    ys_monthProfit stats == 1200 ∧
    ys_ytd stats == 1 ∧
    ys_ytdProfit stats == 1200.
Proof.
  apply (calculateYearStats_missing_first_month pow_floor entry_jan_missing
           entry_feb_plain (doc_btc 1200) heap_year).
  - reflexivity.
  - reflexivity.
  - discriminate.
  - reflexivity.
  - reflexivity.
Defined.

(** ** Month navigation *)

(** X17. [getPreviousMonthId] answers [null] exactly when the month is
    unknown or is the first of the list, so an unknown month is loaded as a
    first month; and when the identifiers are pairwise distinct, the answer
    for the month at position [i + 1] is the identifier at position [i]. *)
Theorem getPreviousMonthId_spec
    (availableMonths : list Month) (currentId : string) :
  (getPreviousMonthId availableMonths currentId = None
   ↔ currentId ∉ month_id <$> availableMonths
     ∨ month_id <$> head availableMonths = Some currentId) ∧
  (NoDup (month_id <$> availableMonths) →
   ∀ i m, availableMonths !! S i = Some m → month_id m = currentId →
          getPreviousMonthId availableMonths currentId
          = month_id <$> availableMonths !! i ∧
          is_Some (availableMonths !! i)).
Proof.
  unfold getPreviousMonthId. split.
  - destruct (list_find _ availableMonths) as [[k x]|] eqn:Hfind.
    + apply list_find_Some in Hfind as (Hk & Hx & Hmin).
      destruct k as [|k]; cbn [Nat.ltb Nat.leb].
      * split; [intros _|done]. right.
        destruct availableMonths; cbn in *; congruence.
      * replace (S k - 1)%nat with k by lia.
        destruct (lookup_lt_is_Some_2 availableMonths k) as [y Hy].
        { apply lookup_lt_Some in Hk. lia. }
        rewrite Hy. cbn. split; [done|]. intros [Hnot|Hhead].
        -- exfalso. apply Hnot. apply list_elem_of_fmap. exists x.
           split; [done|]. by eapply list_elem_of_lookup_2.
        -- exfalso. destruct availableMonths as [|z rest]; [done|].
           cbn in Hhead. injection Hhead as Hz.
           apply (Hmin 0%nat z); [done | lia | done].
    + split; [intros _|done]. left.
      apply list_find_None in Hfind.
      intros [m [-> Hm]]%list_elem_of_fmap.
      by apply (proj1 (Forall_forall _ _) Hfind m Hm).
  - intros Hnd i m Hi Hm.
    destruct (list_find _ availableMonths) as [[k x]|] eqn:Hfind.
    + apply list_find_Some in Hfind as (Hk & Hx & _).
      assert (k = S i) as ->.
      { apply (NoDup_lookup _ _ _ (month_id x) Hnd).
        - by rewrite list_lookup_fmap, Hk.
        - rewrite list_lookup_fmap, Hi. cbn. congruence. }
      cbn [Nat.ltb Nat.leb]. replace (S i - 1)%nat with i by lia.
      split; [done|]. apply lookup_lt_is_Some_2.
      apply lookup_lt_Some in Hi. lia.
    + apply list_find_None in Hfind.
      exfalso. apply (proj1 (Forall_forall _ _) Hfind m); [|done].
      by eapply list_elem_of_lookup_2.
Qed.

Lemma getPreviousMonthId_spec_witness :
  getPreviousMonthId months_q1 "2026-03" = Some "2026-02".
Proof.
  destruct (getPreviousMonthId_spec months_q1 "2026-03") as [_ H].
  destruct (H (ltac:(apply (bool_decide_unpack _); vm_compute; reflexivity))
              1%nat (mkMonth "2026-03" "March 2026") eq_refl eq_refl)
    as [-> _].
  reflexivity.
Defined.

(** ** Asset keys *)

Lemma ascii_toLowerCase_key_char c :
  is_upper (ascii_toLowerCase c) = false ∧
  is_whitespace (ascii_toLowerCase c) = is_whitespace c.
Proof. destruct c as [[] [] [] [] [] [] [] []]; by vm_compute. Qed.

Lemma ascii_toLowerCase_fixed c :
  is_upper c = false → ascii_toLowerCase c = c.
Proof. unfold ascii_toLowerCase, is_upper. by intros ->. Qed.

Lemma toLowerCase_not_upper s :
  Forall (λ c, is_upper c = false) (string_chars (toLowerCase s)).
Proof.
  induction s as [|c s IH]; cbn; constructor; [|done].
  apply ascii_toLowerCase_key_char.
Qed.

Lemma replace_ws_runs_key_chars in_run s :
  Forall (λ c, is_upper c = false) (string_chars s) →
  Forall key_char (string_chars (replace_ws_runs in_run s)).
Proof.
  revert in_run. induction s as [|c s IH]; intros in_run Hs; cbn; [done|].
  apply Forall_cons in Hs as [Hc Hs].
  destruct (is_whitespace c) eqn:Hw.
  - destruct in_run; [by apply IH|].
    cbn. constructor; [done | by apply IH].
  - cbn. constructor; [done | by apply IH].
Qed.

Lemma toLowerCase_fixed s :
  Forall key_char (string_chars s) → toLowerCase s = s.
Proof.
  induction s as [|c s IH]; cbn; [done|].
  intros [[_ Hc] Hs]%Forall_cons.
  by rewrite ascii_toLowerCase_fixed, IH.
Qed.

Lemma replace_ws_runs_fixed s :
  Forall key_char (string_chars s) → replace_ws_runs false s = s.
Proof.
  induction s as [|c s IH]; cbn; [done|].
  intros [[Hc _] Hs]%Forall_cons. by rewrite Hc, IH.
Qed.

(** X18. The key of components written in ASCII is in normal form: it
    contains no whitespace and no upper-case letter, and normalising it again
    leaves it unchanged. *)
Theorem getAssetKey_normal_form (categoryId source name : string) :
  is_ascii categoryId → is_ascii source → is_ascii name →
  let key := getAssetKey categoryId source name in
  Forall key_char (string_chars key) ∧
  replace_ws_runs false (toLowerCase key) = key.
Proof.
  intros _ _ _ key.
  assert (Hk : Forall key_char (string_chars key)).
  { apply replace_ws_runs_key_chars, toLowerCase_not_upper. }
  split; [done|].
  by rewrite (toLowerCase_fixed key), replace_ws_runs_fixed.
Qed.

Lemma getAssetKey_normal_form_witness :
  replace_ws_runs false
    (toLowerCase (getAssetKey "Crypto" "Google  Token" "BTC x"))
  = getAssetKey "Crypto" "Google  Token" "BTC x".
Proof.
  apply (getAssetKey_normal_form "Crypto" "Google  Token" "BTC x");
    apply (bool_decide_unpack _); vm_compute; reflexivity.
Defined.

Lemma string_app_assoc (a b c : string) : (a +:+ b) +:+ c = a +:+ b +:+ c.
Proof.
  induction a as [|x a IH]; [done|].
  change (String x ((a +:+ b) +:+ c) = String x (a +:+ b +:+ c)).
  by rewrite IH.
Qed.

(** X19. The key does not determine the asset: the separator may as well
    belong to a component, so a category [a_b] with source [s] and a category
    [a] with source [b_s] give the same key; and so do components that
    differ only by letter case. *)
Theorem getAssetKey_not_injective (a b source name : string) :
  getAssetKey (a +:+ "_" +:+ b) source name
  = getAssetKey a (b +:+ "_" +:+ source) name ∧
  getAssetKey a source (b +:+ "_" +:+ name)
  = getAssetKey a (source +:+ "_" +:+ b) name ∧
  getAssetKey "crypto" "Binance" "BTC" = getAssetKey "Crypto" "binance" "btc".
Proof.
  unfold getAssetKey. split; [|split; [|reflexivity]].
  - by rewrite !string_app_assoc.
  - by rewrite !string_app_assoc.
Qed.

(** ** Merging locates or creates its targets *)

Lemma applyToItems_creates items s n a :
  ∃ item, item ∈ applyToItems items s n a ∧
          item_name item = n ∧ item_source item = s ∧
          item_isVirtual item = Some true.
Proof.
  unfold applyToItems.
  destruct (list_find _ items) as [[k asset]|] eqn:Hfind.
  - apply list_find_Some in Hfind as (Hk & [Hn Hs] & _).
    exists (touchAsset asset a). split; [|done].
    apply (list_elem_of_lookup_2 _ k), list_lookup_insert_eq.
    by eapply lookup_lt_Some.
  - exists (touchAsset (plainItem n s 0) a). split; [|done].
    apply elem_of_app. right. apply list_elem_of_singleton. done.
Qed.

Lemma applyToItems_preserves items s n a item :
  item ∈ items → item_isVirtual item = Some true →
  ∃ item', item' ∈ applyToItems items s n a ∧
           item_name item' = item_name item ∧
           item_source item' = item_source item ∧
           item_isVirtual item' = Some true.
Proof.
  intros [j Hj]%list_elem_of_lookup_1 Hv. unfold applyToItems.
  destruct (list_find _ items) as [[k asset]|] eqn:Hfind.
  - apply list_find_Some in Hfind as (Hk & _ & _).
    destruct (decide (k = j)) as [->|Hne].
    + assert (asset = item) as -> by congruence.
      exists (touchAsset item a). split; [|done].
      apply (list_elem_of_lookup_2 _ j), list_lookup_insert_eq.
      by eapply lookup_lt_Some.
    + exists item. split; [|done].
      apply (list_elem_of_lookup_2 _ j). by rewrite list_lookup_insert_ne.
  - exists item. split; [|done]. apply elem_of_app. left.
    by eapply list_elem_of_lookup_2.
Qed.

Lemma applyToPortfolio_creates cats c s n a :
  hasVirtualAsset (applyToPortfolio cats c s n a) c s n.
Proof.
  unfold applyToPortfolio, hasVirtualAsset.
  destruct (list_find _ cats) as [[k category]|] eqn:Hfind.
  - apply list_find_Some in Hfind as (Hk & Hid & _).
    destruct (applyToItems_creates (cat_items category) s n a)
      as (item & Hin & Hn & Hs & Hv).
    exists (withItems category (applyToItems (cat_items category) s n a)),
           item.
    split; [|done].
    apply (list_elem_of_lookup_2 _ k), list_lookup_insert_eq.
    by eapply lookup_lt_Some.
  - destruct (applyToItems_creates [] s n a) as (item & Hin & Hn & Hs & Hv).
    exists (mkCategory c c "#cbd5e0" (applyToItems [] s n a)), item.
    split; [|done].
    apply elem_of_app. right. apply list_elem_of_singleton. done.
Qed.

Lemma applyToPortfolio_preserves cats c s n a c' s' n' :
  hasVirtualAsset cats c' s' n' →
  hasVirtualAsset (applyToPortfolio cats c s n a) c' s' n'.
Proof.
  intros (cat & item & [j Hj]%list_elem_of_lookup_1 & Hid & Hin & Hn & Hs & Hv).
  unfold applyToPortfolio, hasVirtualAsset.
  destruct (list_find _ cats) as [[k category]|] eqn:Hfind.
  - apply list_find_Some in Hfind as (Hk & _ & _).
    destruct (decide (k = j)) as [->|Hne].
    + assert (category = cat) as -> by congruence.
      destruct (applyToItems_preserves (cat_items cat) s n a item Hin Hv)
        as (item' & Hin' & Hn' & Hs' & Hv').
      exists (withItems cat (applyToItems (cat_items cat) s n a)), item'.
      split; [|split; [exact Hid|]].
      * apply (list_elem_of_lookup_2 _ j), list_lookup_insert_eq.
        by eapply lookup_lt_Some.
      * cbn [withItems cat_items]. split; [done|]. split; [congruence|].
        split; [congruence | done].
    + exists cat, item. split; [|done].
      apply (list_elem_of_lookup_2 _ j). by rewrite list_lookup_insert_ne.
  - exists cat, item. split; [|done]. apply elem_of_app. left.
    by eapply list_elem_of_lookup_2.
Qed.

Lemma stepCats_creates cats t c s n :
  (c, s, n) ∈ targets t → hasVirtualAsset (stepCats cats t) c s n.
Proof.
  destruct t; cbn [targets stepCats].
  - intros [= -> -> ->]%list_elem_of_singleton. apply applyToPortfolio_creates.
  - intros [= -> -> ->]%list_elem_of_singleton. apply applyToPortfolio_creates.
  - intros [[= -> -> ->]|[= -> -> ->]%list_elem_of_singleton]%elem_of_cons.
    + apply applyToPortfolio_preserves, applyToPortfolio_creates.
    + apply applyToPortfolio_creates.
  - intros []%elem_of_nil.
Qed.

Lemma stepCats_preserves cats t c s n :
  hasVirtualAsset cats c s n → hasVirtualAsset (stepCats cats t) c s n.
Proof.
  destruct t; cbn [stepCats]; auto using applyToPortfolio_preserves.
Qed.

Lemma mergeCats_preserves ts cats c s n :
  hasVirtualAsset cats c s n → hasVirtualAsset (mergeCats cats ts) c s n.
Proof.
  unfold mergeCats. revert cats.
  induction ts as [|t ts IH]; intros cats H; [done|].
  cbn [foldl]. by apply IH, stepCats_preserves.
Qed.

Lemma mergeCats_creates ts cats t c s n :
  t ∈ ts → (c, s, n) ∈ targets t → hasVirtualAsset (mergeCats cats ts) c s n.
Proof.
  revert cats. induction ts as [|t' ts IH]; intros cats Ht Htarget.
  - by apply elem_of_nil in Ht.
  - apply elem_of_cons in Ht as [<-|Ht].
    + apply (mergeCats_preserves ts (stepCats cats t)).
      by apply stepCats_creates.
    + by apply (IH (stepCats cats t')).
Qed.

(** X20. Merging locates or creates every target: for each deposit, withdraw
    or move of the list, the merged document has a category with the
    transfer's category identifier and, in it, a virtual item with the
    transfer's name and source (for a move: on both sides). *)
Theorem mergeTransfers_targets_exist
    (h : heap) (l : loc) (cats : list Category) (ts : list Transfer)
    (t : Transfer) (c s n : string) :
  h !! l = Some (mkPortfolioData (Some cats)) →
  t ∈ ts → (c, s, n) ∈ targets t →
  ∃ h' cats',
    mergeTransfers (Some l) (Some ts) h = Returned (Some l) h' ∧
    h' !! l = Some (mkPortfolioData (Some cats')) ∧
    hasVirtualAsset cats' c s n.
Proof.
  intros Hl Ht Htarget. rewrite mergeTransfers_run, Hl.
  cbn [mbind option_bind portfolio].
  eexists _, (mergeCats cats ts). split; [done|].
  split; [apply lookup_insert_eq | by eapply mergeCats_creates].
Qed.

Lemma mergeTransfers_targets_exist_witness :
  ∃ h' cats',
    mergeTransfers (Some 1%positive)
      (Some [move "crypto" "Binance" "BTC" "cash" "Bank" "USD" 50])
      (heap_btc 500)
    = Returned (Some 1%positive) h' ∧
    h' !! 1%positive = Some (mkPortfolioData (Some cats')) ∧
    hasVirtualAsset cats' "cash" "Bank" "USD".
Proof.
  apply (mergeTransfers_targets_exist (heap_btc 500) 1%positive
           [mkCategory "crypto" "Crypto" "#f6ad55"
              [plainItem "BTC" "Binance" 500]]
           [move "crypto" "Binance" "BTC" "cash" "Bank" "USD" 50]
           (move "crypto" "Binance" "BTC" "cash" "Bank" "USD" 50)).
  - reflexivity.
  - apply list_elem_of_here.
  - apply list_elem_of_further, list_elem_of_here.
Defined.

(** ** Comparing without a previous snapshot *)

(** X23. Without a previous snapshot no asset is a ghost: an asset of the
    current snapshot is new when its value is positive, hidden when it is 0
    and normal when it is negative, and its previous value is 0. *)
Theorem compareSnapshots_no_previous
    (cur : Snapshot) (adjustments : gmap string Adjustment)
    (key : string) (a : AssetData) :
  snap_assetMap cur !! key = Some a →
  ∃ r, cmp_assets (compareSnapshots cur None adjustments) !! key = Some r ∧
       previousVal (ac_info r) = 0 ∧
       currentVal (ac_info r) = ad_val a ∧
       ac_status r ≠ status_ghost ∧
       (0 < ad_val a → ac_status r = status_new) ∧
       (ad_val a == 0 → ac_status r = status_hidden) ∧
       (ad_val a < 0 → ac_status r = status_normal).
Proof.
  intros Ha. rewrite compareSnapshots_assets_lookup.
  rewrite decide_True by (left; cbn; eauto).
  eexists. split; [reflexivity|].
  cbn [ac_info ac_status compareAsset calculateDelta previousVal currentVal
       mbind option_bind]. rewrite Ha. cbn [fmap option_fmap option_map or_default].
  split; [done|]. split; [done|].
  unfold statusOf.
  assert (num_gt 0 0 = false) as -> by reflexivity.
  assert (num_eq 0 0 = true) as -> by reflexivity.
  rewrite bool_decide_eq_true_2 by done. rewrite !andb_true_r, andb_false_r.
  destruct (num_gt (ad_val a) 0) eqn:Hgt;
    [apply num_gt_true in Hgt | apply num_gt_false in Hgt];
  (destruct (num_eq (ad_val a) 0) eqn:Heq;
    [apply num_eq_true in Heq | apply num_eq_false in Heq]);
  split_and!; intros; try done; try lra.
Qed.

Lemma compareSnapshots_no_previous_witness :
  ∃ r, cmp_assets (compareSnapshots (buildSnapshot (Some (doc_btc 500)) [])
                     None ∅) !! key_btc = Some r ∧
       ac_status r = status_new.
Proof.
  destruct (compareSnapshots_no_previous
              (buildSnapshot (Some (doc_btc 500)) []) ∅ key_btc
              (assetDataOf (mkCategory "crypto" "Crypto" "#f6ad55" [])
                 (plainItem "BTC" "Binance" 500)))
    as (r & Hr & _ & _ & _ & Hnew & _).
  - vm_compute. reflexivity.
  - exists r. split; [exact Hr | apply Hnew; reflexivity].
Defined.


(** * Properties of the engine on doubles *)

(** From here on the names are those of [Double]: numbers are binary64
    floats and [=] on them is identity of the floating-point value. *)
Import Double.

Local Open Scope float_scope.

(** ** Snapshot totals *)

Lemma foldl_add_fmap {A} (f : A → float) (l : list A) (a : float) :
  foldl (λ acc x, acc + f x) a l = foldl PrimFloat.add a (f <$> l).
Proof. revert a. induction l as [|x l IH]; intros a; cbn; [done|apply IH]. Qed.

Lemma categoryTotal_Fsum cat :
  categoryTotal cat = Fsum (item_val <$> cat_items cat).
Proof. apply foldl_add_fmap. Qed.

(** The inner loop: the running total, and the fields it leaves alone. *)
Lemma addItem_foldl_catData cat items cd am :
  let r := foldl (addItem cat) (cd, am) items in
  cd_total r.1 = foldl (λ sum item, sum + item_val item) (cd_total cd) items ∧
  cd_id r.1 = cd_id cd ∧ cd_title r.1 = cd_title cd ∧
  cd_color r.1 = cd_color cd.
Proof.
  revert cd am. induction items as [|i items IH]; intros cd am; [done|].
  cbn [foldl]. unfold addItem at 2 4 6 8. exact (IH _ _).
Qed.

Lemma addCategory_total s cat :
  snap_total (addCategory s cat) = snap_total s + categoryTotal cat.
Proof.
  unfold addCategory.
  pose proof (addItem_foldl_catData cat (cat_items cat)
    (mkCatData (cat_id cat) (cat_title cat) (cat_color cat) 0 ∅)
    (snap_assetMap s)) as [H _].
  destruct (foldl _ _ _) as [cd am]. cbn in *. by rewrite H.
Qed.

Lemma addCategory_categories s cat :
  ∃ cd, cd_total cd = categoryTotal cat ∧
        snap_categories (addCategory s cat)
        = obj_set (cat_id cat) cd (snap_categories s).
Proof.
  unfold addCategory.
  pose proof (addItem_foldl_catData cat (cat_items cat)
    (mkCatData (cat_id cat) (cat_title cat) (cat_color cat) 0 ∅)
    (snap_assetMap s)) as [H _].
  destruct (foldl _ _ _) as [cd am]. cbn in *. by exists cd.
Qed.

Lemma addCategory_foldl_total cats s :
  snap_total (foldl addCategory s cats)
  = foldl (λ total category, total + categoryTotal category)
      (snap_total s) cats.
Proof.
  revert s. induction cats as [|cat cats IH]; intros s; [done|].
  cbn [foldl]. by rewrite IH, addCategory_total.
Qed.

(** The grand total of a snapshot is what [calculateTotalBalance] computes
    on the same document: the same additions in the same order. *)
Lemma buildSnapshot_total_calculateTotalBalance d ts :
  snap_total (buildSnapshot d ts) = calculateTotalBalance d.
Proof.
  unfold buildSnapshot, calculateTotalBalance.
  destruct d as [[[cats|]]|]; cbn; [|done..].
  apply addCategory_foldl_total.
Qed.

(** The total recorded under an identifier, category by category. *)
Lemma addCategory_recordedTotal s cat id :
  recordedTotal (addCategory s cat) id
  = if decide (cat_id cat = id ∧ id ≠ "__proto__")
    then Some (categoryTotal cat) else recordedTotal s id.
Proof.
  unfold recordedTotal.
  destruct (addCategory_categories s cat) as (cd & Hcd & ->).
  unfold obj_set. destruct (decide (cat_id cat = "__proto__")) as [Hp|Hp].
  - rewrite decide_False; [done|]. intros [<- ?]. done.
  - destruct (decide (cat_id cat = id)) as [<-|Hne].
    + rewrite decide_True by done. by rewrite lookup_insert_eq; cbn; rewrite Hcd.
    + rewrite decide_False by tauto. by rewrite lookup_insert_ne.
Qed.

Lemma addCategory_foldl_recordedTotal_other cats s id :
  id ∉ (cat_id <$> cats) →
  recordedTotal (foldl addCategory s cats) id = recordedTotal s id.
Proof.
  revert s. induction cats as [|cat cats IH]; intros s Hid; [done|].
  cbn [foldl fmap list_fmap] in *. apply not_elem_of_cons in Hid as [Hne Hid].
  rewrite IH by done. rewrite addCategory_recordedTotal.
  rewrite decide_False; [done|]. intros [? ?]. done.
Qed.

(** The last category carrying an identifier is the one recorded. *)
Lemma addCategory_foldl_recordedTotal l1 cat l2 s :
  cat_id cat ∉ (cat_id <$> l2) → cat_id cat ≠ "__proto__" →
  recordedTotal (foldl addCategory s (l1 ++ cat :: l2)) (cat_id cat)
  = Some (categoryTotal cat).
Proof.
  intros Hfresh Hp. rewrite foldl_app. cbn [foldl].
  rewrite addCategory_foldl_recordedTotal_other by done.
  rewrite addCategory_recordedTotal. by rewrite decide_True.
Qed.

Lemma recordedTotals_insert (m : gmap string CatData) id cd :
  m !! id = None →
  (λ e : string * CatData, cd_total e.2) <$> map_to_list (<[id := cd]> m)
  ≡ₚ cd_total cd :: ((λ e : string * CatData, cd_total e.2) <$> map_to_list m).
Proof.
  intros Hid. by rewrite (map_to_list_insert m id cd Hid).
Qed.

Lemma addCategory_foldl_recordedTotals cats s :
  NoDup (cat_id <$> cats) → "__proto__" ∉ (cat_id <$> cats) →
  (∀ cat, cat ∈ cats → snap_categories s !! cat_id cat = None) →
  recordedTotals (foldl addCategory s cats)
  ≡ₚ recordedTotals s ++ (categoryTotal <$> cats).
Proof.
  revert s. induction cats as [|cat cats IH]; intros s Hnd Hproto Hfresh.
  - cbn. by rewrite app_nil_r.
  - cbn [foldl fmap list_fmap] in *. apply NoDup_cons in Hnd as [Hcat Hnd].
    apply not_elem_of_cons in Hproto as [Hp Hproto].
    destruct (addCategory_categories s cat) as (cd & Hcd & Hcats).
    unfold obj_set in Hcats. rewrite decide_False in Hcats by done.
    rewrite IH; [|done|done|].
    + unfold recordedTotals at 1. rewrite Hcats.
      rewrite recordedTotals_insert by (apply Hfresh; set_solver).
      rewrite Hcd. unfold recordedTotals. cbn [app].
      apply Permutation_middle.
    + intros c Hc. rewrite Hcats, lookup_insert_ne.
      * apply Hfresh. set_solver.
      * intros Heq. apply Hcat. rewrite Heq. by apply list_elem_of_fmap_2.
Qed.

Lemma omap_recordedTotal cats s :
  NoDup (cat_id <$> cats) → "__proto__" ∉ (cat_id <$> cats) →
  omap (λ cat, recordedTotal (foldl addCategory s cats) (cat_id cat)) cats
  = categoryTotal <$> cats.
Proof.
  intros Hnd Hproto.
  enough (∀ l1 l2, cats = l1 ++ l2 →
            omap (λ cat, recordedTotal (foldl addCategory s cats)
                           (cat_id cat)) l2
            = categoryTotal <$> l2) as H by exact (H [] cats eq_refl).
  intros l1 l2. revert l1. induction l2 as [|cat l2 IH]; intros l1 Hc; [done|].
  cbn [omap list_omap fmap list_fmap].
  rewrite (IH (l1 ++ [cat])) by (by rewrite <- app_assoc).
  subst cats. rewrite addCategory_foldl_recordedTotal; [done| |].
  - rewrite fmap_app, fmap_cons in Hnd.
    apply NoDup_app in Hnd as (_ & _ & Hnd). by apply NoDup_cons in Hnd as [? _].
  - intros Hp. apply Hproto. rewrite fmap_app, fmap_cons, Hp. set_solver.
Qed.

(** C1 (as stated, refuted), on three documents.  With two categories of the
    same identifier the later one replaces the earlier one in
    [snapshot.categories] while both were added to [snapshot.total]: the
    total is 3, the one recorded category total is 2.  With the identifiers
    [__proto__] and [cash] only [cash] becomes a property of
    [snapshot.categories]: the total is 12, the one recorded category total
    is 7.  (Each of the two snapshots records one category, so the order of
    summation plays no role.)  With the categories [0.1] and [0.2; 0.3] the
    total is [0.1 + (0.2 + 0.3) = 0.6], while the values of the asset
    entries add up to [(0.1 + 0.2) + 0.3 = 0.6000000000000001]. *)
Lemma buildSnapshot_totals_refuted :
  ¬ total_is_sum_of_category_totals doc_duplicate_category ∧
  ¬ total_is_sum_of_category_totals doc_proto_category ∧
  ¬ total_is_sum_of_asset_values doc_rounding.
Proof.
  unfold total_is_sum_of_category_totals, total_is_sum_of_asset_values.
  split; [|split]; vm_compute; discriminate.
Qed.

Example buildSnapshot_refuted_values :
  let s1 := buildSnapshot (Some doc_duplicate_category) [] in
  let s2 := buildSnapshot (Some doc_proto_category) [] in
  let s3 := buildSnapshot (Some doc_rounding) [] in
  snap_total s1 = 3 ∧ recordedTotals s1 = [2] ∧
  snap_total s2 = 12 ∧ recordedTotals s2 = [7] ∧
  snap_categories s2 !! "__proto__" = None ∧
  snap_total s3 = 0.6 ∧
  Fsum (assetValues (or_default [] (portfolio doc_rounding)))
  = 0.6000000000000001.
Proof. vm_compute. done. Qed.

(** C1 (amended).  The total of the snapshot is the sum of the per-category
    sums of the document, added in document order, each of them the sum of
    the values of the category's items added in item order; every addition
    is a rounded double addition, so this nested sum is what the total is,
    and it is what [calculateTotalBalance] returns.  Under an identifier
    other than [__proto__] the snapshot records the sum of the last category
    carrying it; when the identifiers are pairwise distinct and none is
    [__proto__], the recorded totals are exactly the per-category sums and
    adding them up in document order gives the total.  A null document, or
    one without a portfolio list, gives the all-zero snapshot with empty
    maps. *)
Theorem buildSnapshot_totals
    (d : PortfolioData) (ts : list Transfer) (cats : list Category) :
  buildSnapshot None ts = mkSnapshot 0 ∅ ∅ ∧
  (portfolio d = None → buildSnapshot (Some d) ts = mkSnapshot 0 ∅ ∅) ∧
  (portfolio d = Some cats →
   let s := buildSnapshot (Some d) ts in
   snap_total s = Fsum (categoryTotal <$> cats) ∧
   (∀ cat, categoryTotal cat = Fsum (item_val <$> cat_items cat)) ∧
   snap_total s = calculateTotalBalance (Some d) ∧
   (∀ l1 cat l2, cats = l1 ++ cat :: l2 →
      cat_id cat ∉ (cat_id <$> l2) → cat_id cat ≠ "__proto__" →
      recordedTotal s (cat_id cat) = Some (categoryTotal cat)) ∧
   (NoDup (cat_id <$> cats) → "__proto__" ∉ (cat_id <$> cats) →
      recordedTotals s ≡ₚ categoryTotal <$> cats ∧
      snap_total s
      = Fsum (omap (λ cat, recordedTotal s (cat_id cat)) cats))).
Proof.
  split; [done|]. split.
  - intros Hd. unfold buildSnapshot. by rewrite Hd.
  - intros Hd s.
    assert (Hs : s = foldl addCategory emptySnapshot cats).
    { unfold s, buildSnapshot. by rewrite Hd. }
    assert (Htot : snap_total s = Fsum (categoryTotal <$> cats)).
    { rewrite Hs, addCategory_foldl_total. apply foldl_add_fmap. }
    split; [exact Htot|]. split; [apply categoryTotal_Fsum|].
    split; [apply buildSnapshot_total_calculateTotalBalance|].
    split.
    + intros l1 cat l2 -> Hfresh Hp. rewrite Hs.
      by apply addCategory_foldl_recordedTotal.
    + intros Hnd Hproto. split.
      * rewrite Hs, addCategory_foldl_recordedTotals; [done..|].
        intros cat _. apply lookup_empty.
      * rewrite Htot, Hs. by rewrite omap_recordedTotal.
Qed.

Lemma buildSnapshot_totals_witness :
  let s := buildSnapshot (Some doc_rounding) [] in
  snap_total s = 0.6 ∧
  recordedTotal s "crypto" = Some 0.5 ∧
  recordedTotals s ≡ₚ [0.1; 0.5].
Proof.
  destruct (buildSnapshot_totals doc_rounding []
              (or_default [] (portfolio doc_rounding)))
    as (_ & _ & H).
  destruct (H eq_refl) as (H1 & _ & _ & H2 & H3).
  split; [exact H1|]. split.
  - exact (H2 [mkCategory "cash" "Cash" "#68d391" [plainItem "USD" "Bank" 0.1]]
              (mkCategory "crypto" "Crypto" "#f6ad55"
                 [plainItem "BTC" "Binance" 0.2; plainItem "ETH" "Ledger" 0.3])
              [] eq_refl (not_elem_of_nil _)
              ltac:(discriminate)).
  - apply H3; apply (bool_decide_unpack _); vm_compute; reflexivity.
Defined.

(** ** Transfer merger: effect on the heap *)

Lemma applyTransferOperation_run_double
    (h : gmap positive PortfolioData) l cats c s n amount :
  h !! l = Some (mkPortfolioData (Some cats)) →
  applyTransferOperation l c s n amount h
  = Returned ()
      (<[l := mkPortfolioData (Some (applyToPortfolio cats c s n amount))]> h).
Proof. intros Hl. unfold applyTransferOperation. by rewrite Hl. Qed.

Lemma merge_step_run_double (h : gmap positive PortfolioData) l cats t :
  h !! l = Some (mkPortfolioData (Some cats)) →
  merge_step l t h
  = Returned () (<[l := mkPortfolioData (Some (stepCats cats t))]> h).
Proof.
  intros Hl. destruct t; cbn [merge_step stepCats].
  - by apply applyTransferOperation_run_double.
  - by apply applyTransferOperation_run_double.
  - unfold mbind, M_bind.
    rewrite (applyTransferOperation_run_double h l cats) by done.
    erewrite applyTransferOperation_run_double by apply lookup_insert_eq.
    by rewrite insert_insert_eq.
  - unfold mret, M_ret. by rewrite insert_id.
Qed.

Lemma forEach_merge_step_run_double
    ts (h : gmap positive PortfolioData) l cats :
  h !! l = Some (mkPortfolioData (Some cats)) →
  forEach ts (merge_step l) h
  = Returned () (<[l := mkPortfolioData (Some (mergeCats cats ts))]> h).
Proof.
  revert h cats. induction ts as [|t ts IH]; intros h cats Hl.
  - cbn. unfold mret, M_ret. by rewrite insert_id.
  - cbn [forEach]. unfold mbind, M_bind.
    rewrite (merge_step_run_double h l cats) by done.
    erewrite IH by apply lookup_insert_eq.
    by rewrite insert_insert_eq.
Qed.

(** What [mergeTransfers] does, case by case: it returns the reference it
    was given, and the heap differs at most at that reference, where the
    category list has become [mergeCats]. *)
Lemma mergeTransfers_run_double (h : gmap positive PortfolioData) p transfers :
  mergeTransfers p transfers h
  = Returned p
      (match p, transfers with
       | Some l, Some ts =>
           match h !! l ≫= portfolio with
           | Some cats => <[l := mkPortfolioData (Some (mergeCats cats ts))]> h
           | None => h
           end
       | _, _ => h
       end).
Proof.
  destruct transfers as [[|t ts]|], p as [l|]; try done.
  - cbn. destruct (h !! l) as [[[cats|]]|] eqn:Hl; cbn; try done.
    by rewrite insert_id.
  - unfold mergeTransfers.
    destruct (h !! l) as [[[cats|]]|] eqn:Hl; cbn [mbind option_bind portfolio];
      try done.
    unfold mbind at 1, M_bind.
    by rewrite (forEach_merge_step_run_double (t :: ts) h l cats).
Qed.

(** ** Find, else push *)

Section FindOrPush.
Context {A : Type} (P : A → Prop) `{!∀ x, Decision (P x)}.
Context (touch : A → A) (fresh : A).

Lemma findOrPush_nil : findOrPush P touch fresh [] = [touch fresh].
Proof. done. Qed.

Lemma findOrPush_cons x l :
  findOrPush P touch fresh (x :: l)
  = if decide (P x) then touch x :: l
    else x :: findOrPush P touch fresh l.
Proof.
  unfold findOrPush. cbn [list_find]. destruct (decide (P x)); [done|].
  by destruct (list_find P l) as [[k y]|].
Qed.

(** The element the operation worked on is the one [find] reaches
    afterwards. *)
Lemma findOrPush_find_same l :
  (∀ x, P x → P (touch x)) → P (touch fresh) →
  snd <$> list_find P (findOrPush P touch fresh l)
  = Some (touch (or_default fresh (snd <$> list_find P l))).
Proof.
  intros Hkeep Hfresh. induction l as [|x l IH].
  - rewrite findOrPush_nil. cbn. by rewrite decide_True.
  - rewrite findOrPush_cons. cbn [list_find].
    destruct (decide (P x)) as [Hx|Hx]; cbn [list_find].
    + by rewrite decide_True by auto.
    + rewrite decide_False by done.
      rewrite <- !option_fmap_compose.
      change (snd ∘ prod_map S id) with (snd : nat * A → A).
      rewrite IH. by destruct (list_find P l) as [[k y]|].
Qed.

(** A search that cannot stop on the element worked on reaches what it
    reached before. *)
Lemma findOrPush_find_other (Q : A → Prop) `{!∀ x, Decision (Q x)} l :
  (∀ x, P x → ¬ Q x) → (∀ x, P x → ¬ Q (touch x)) → ¬ Q (touch fresh) →
  snd <$> list_find Q (findOrPush P touch fresh l) = snd <$> list_find Q l.
Proof.
  intros HPQ Htouch Hfresh. induction l as [|x l IH].
  - rewrite findOrPush_nil. cbn. by rewrite decide_False.
  - rewrite findOrPush_cons. destruct (decide (P x)) as [Hx|Hx];
      cbn [list_find].
    + by rewrite !decide_False by auto.
    + destruct (decide (Q x)); [done|].
      rewrite <- !option_fmap_compose.
      change (snd ∘ prod_map S id) with (snd : nat * A → A). exact IH.
Qed.

End FindOrPush.

(** ** Transfer merger: what becomes of each asset *)

Lemma applyToItems_findOrPush_double items source assetName amount :
  applyToItems items source assetName amount
  = findOrPush (λ i, item_name i = assetName ∧ item_source i = source)
      (λ asset, touchAsset asset amount) (plainItem assetName source 0) items.
Proof. reflexivity. Qed.

Lemma applyToPortfolio_findOrPush_double
    cats categoryId source assetName amount :
  applyToPortfolio cats categoryId source assetName amount
  = findOrPush (λ c, cat_id c = categoryId)
      (λ category,
         withItems category
           (applyToItems (cat_items category) source assetName amount))
      (mkCategory categoryId categoryId "#cbd5e0" []) cats.
Proof. reflexivity. Qed.

(** One operation, seen through [findAsset]: the asset addressed is the one
    found before, or a new one of value 0, with the writes of [touchAsset];
    every other asset is what it was. *)
Lemma findAsset_applyToPortfolio_double cats c s n amount c' s' n' :
  findAsset (applyToPortfolio cats c s n amount) c' s' n'
  = if decide ((c, s, n) = (c', s', n'))
    then Some (touchAsset (or_default (plainItem n s 0) (findAsset cats c s n))
                 amount)
    else findAsset cats c' s' n'.
Proof.
  unfold findAsset. rewrite applyToPortfolio_findOrPush_double.
  destruct (decide (c = c')) as [<-|Hc].
  - rewrite findOrPush_find_same by done.
    cbn [mbind option_bind withItems cat_items].
    rewrite applyToItems_findOrPush_double.
    destruct (decide ((c, s, n) = (c, s', n'))) as [[= <- <-]|Hne].
    + rewrite findOrPush_find_same by (cbn; tauto).
      by destruct (list_find _ cats) as [[k cat]|].
    + rewrite findOrPush_find_other.
      * by destruct (list_find _ cats) as [[k cat]|].
      * intros x [? ?] [? ?]. congruence.
      * intros x [? ?] [? ?]. cbn in *. congruence.
      * intros [? ?]. cbn in *. congruence.
  - rewrite decide_False by congruence.
    by rewrite findOrPush_find_other by (cbn; congruence).
Qed.

Lemma touchAsset_adjusted_double asset amounts amount :
  touchAsset (adjusted asset amounts) amount
  = adjusted asset (amounts ++ [amount]).
Proof.
  unfold touchAsset, adjusted. cbn. by rewrite !foldl_snoc, <- app_assoc.
Qed.

Lemma foldl_touchAsset_adjusted_double asset amounts :
  amounts ≠ [] → foldl touchAsset asset amounts = adjusted asset amounts.
Proof.
  induction amounts as [|amount amounts IH] using rev_ind; [done|].
  intros _. rewrite foldl_snoc. destruct amounts as [|a0 amounts]; [done|].
  rewrite IH by done. apply touchAsset_adjusted_double.
Qed.

Lemma foldl_touch_mergedAsset_double found s n amounts :
  foldl (λ o a, Some (touchAsset (or_default (plainItem n s 0) o) a))
    found amounts
  = mergedAsset found s n amounts.
Proof.
  destruct amounts as [|a amounts]; [done|].
  unfold mergedAsset. rewrite <- foldl_touchAsset_adjusted_double by done.
  cbn [foldl]. generalize (touchAsset (or_default (plainItem n s 0) found) a).
  induction amounts as [|a' amounts IH]; intros x; [done|]. apply IH.
Qed.

Lemma stepCats_findAsset_double cats t c s n :
  findAsset (stepCats cats t) c s n
  = foldl (λ o a, Some (touchAsset (or_default (plainItem n s 0) o) a))
      (findAsset cats c s n) (amountsOn c s n t).
Proof.
  destruct t; cbn [stepCats amountsOn];
    rewrite ?findAsset_applyToPortfolio_double;
    repeat case_decide; simplify_eq; try done.
  all: cbn [app foldl]; rewrite ?findAsset_applyToPortfolio_double;
    rewrite ?decide_True by done; rewrite ?decide_False by done; done.
Qed.

Lemma mergeCats_findAsset_double ts cats c s n :
  findAsset (mergeCats cats ts) c s n
  = mergedAsset (findAsset cats c s n) s n (ts ≫= amountsOn c s n).
Proof.
  rewrite <- foldl_touch_mergedAsset_double. unfold mergeCats. revert cats.
  induction ts as [|t ts IH]; intros cats; [done|].
  cbn [foldl mbind list_bind].
  by rewrite foldl_app, IH, stepCats_findAsset_double.
Qed.



Example mergeTransfers_move_values :
  let cats := or_default [] (portfolio doc_two_assets) in
  calculateTotalBalance (Some doc_two_assets) = 3500.2999999999997 ∧
  item_val <$> findAsset (mergeCats cats [move_300_3]) "crypto" "Binance" "BTC"
  = Some 699.8 ∧
  item_val <$> findAsset (mergeCats cats [move_300_3]) "cash" "Bank" "USD"
  = Some 2800.5 ∧
  calculateTotalBalance
    (Some (mkPortfolioData (Some (mergeCats cats [move_300_3]))))
  = 3500.3.
Proof. vm_compute. done. Qed.



(** ** Transfer merger: in-place update *)

(** C7 (as stated, refuted).  Merging one deposit of 200 into the document
    held at reference 1 changes that very document: its asset is worth 700
    afterwards and carries the virtual flag. *)
Lemma mergeTransfers_mutates_input :
  ¬ merge_leaves_input_unchanged (heap_btc 500) 1%positive
      [deposit "crypto" "Binance" "BTC" 200].
Proof.
  intros H.
  specialize (H _ _ (mergeTransfers_run_double _ _ _)).
  vm_compute in H. discriminate H.
Qed.

Example mergeTransfers_deposit_result :
  mergeTransfers (Some 1%positive)
    (Some [deposit "crypto" "Binance" "BTC" 200]) (heap_btc 500)
  = Returned (Some 1%positive)
      {[ 1%positive :=
           mkPortfolioData
             (Some [mkCategory "crypto" "Crypto" "#f6ad55"
                      [mkItem "BTC" "Binance" 700 (Some 500)
                         (Some true) (Some 200) (Some [200])]]) ]}.
Proof. rewrite mergeTransfers_run_double. vm_compute. reflexivity. Qed.

Lemma sum_list_insert (l : list nat) k x y :
  l !! k = Some x → (sum_list (<[k := y]> l) + x = sum_list l + y)%nat.
Proof.
  revert k. induction l as [|z l IH]; intros [|k] Hk; try done.
  - cbn in Hk. injection Hk as ->. cbn. lia.
  - specialize (IH k Hk).
    change (z + sum_list (<[k := y]> l) + x = z + sum_list l + y)%nat. lia.
Qed.

Lemma applyToItems_history items source assetName amount :
  sum_list (itemHistory <$> applyToItems items source assetName amount)
  = S (sum_list (itemHistory <$> items)).
Proof.
  unfold applyToItems.
  destruct (list_find _ items) as [[k asset]|] eqn:Hfind.
  - apply list_find_Some in Hfind as (Hk & _ & _).
    rewrite list_fmap_insert.
    pose proof (sum_list_insert (itemHistory <$> items) k (itemHistory asset)
                  (itemHistory (touchAsset asset amount))) as H.
    rewrite list_lookup_fmap, Hk in H. specialize (H eq_refl).
    assert (itemHistory (touchAsset asset amount) = S (itemHistory asset))
      as Ht.
    { unfold itemHistory. cbn. rewrite length_app. cbn. lia. }
    lia.
  - rewrite fmap_app, sum_list_with_app. cbn. lia.
Qed.

Lemma catHistory_applyToItems category source assetName amount :
  catHistory (withItems category
                (applyToItems (cat_items category) source assetName amount))
  = S (catHistory category).
Proof. unfold catHistory. cbn [withItems cat_items]. apply applyToItems_history. Qed.

Lemma applyToPortfolio_history cats categoryId source assetName amount :
  docHistory (applyToPortfolio cats categoryId source assetName amount)
  = S (docHistory cats).
Proof.
  unfold docHistory, applyToPortfolio.
  destruct (list_find _ cats) as [[k category]|] eqn:Hfind.
  - apply list_find_Some in Hfind as (Hk & _ & _).
    rewrite list_fmap_insert.
    pose proof (sum_list_insert (catHistory <$> cats) k (catHistory category)
      (catHistory (withItems category
         (applyToItems (cat_items category) source assetName amount)))) as H.
    rewrite list_lookup_fmap, Hk in H. specialize (H eq_refl).
    rewrite catHistory_applyToItems in H |- *. lia.
  - rewrite fmap_app, sum_list_with_app. cbn [fmap list_fmap sum_list_with].
    change (mkCategory categoryId categoryId "#cbd5e0"
              (applyToItems [] source assetName amount))
      with (withItems (mkCategory categoryId categoryId "#cbd5e0" [])
              (applyToItems
                 (cat_items (mkCategory categoryId categoryId "#cbd5e0" []))
                 source assetName amount)).
    rewrite catHistory_applyToItems. cbn. lia.
Qed.

Lemma mergeCats_history ts cats :
  docHistory (mergeCats cats ts) = (docHistory cats + opCount ts)%nat.
Proof.
  unfold mergeCats, opCount. revert cats.
  induction ts as [|t ts IH]; intros cats; cbn [foldl sum_list_with].
  - lia.
  - rewrite IH. destruct t; cbn [stepCats transferOps];
      rewrite ?applyToPortfolio_history; lia.
Qed.

Lemma mergeCats_no_op ts cats : opCount ts = 0%nat → mergeCats cats ts = cats.
Proof.
  unfold mergeCats, opCount. revert cats.
  induction ts as [|t ts IH]; intros cats; [done|].
  destruct t; cbn [sum_list_with transferOps]; try lia.
  intros H. by apply IH.
Qed.

(** C7 (amended).  [mergeTransfers] works in place: it always returns, and
    returns the reference it was given; every other document of the heap is
    untouched; the given document is left as it was when the list is missing,
    empty or without any deposit, withdraw or move, and when the document is
    null or has no portfolio list; in every other case the given document
    itself is changed, its category list becoming [mergeCats], where each
    applied operation has appended one entry to an adjustment history.  In
    the merged document, the asset a category identifier, source and name
    address is the one they addressed before, or a new one of value 0, with
    the signed amounts of the transfers on it added to its value and to its
    adjustment (one rounded addition each) and appended to its history in
    list order, its original value recorded and its virtual flag set; an
    asset no transfer addresses is as it was. *)
Theorem mergeTransfers_in_place
    (h : gmap positive PortfolioData) (portfolioData : option loc)
    (transfers : option (list Transfer)) :
  let ts := or_default [] transfers in
  ∃ h', mergeTransfers portfolioData transfers h = Returned portfolioData h' ∧
        (∀ l', Some l' ≠ portfolioData → h' !! l' = h !! l') ∧
        (opCount ts = 0%nat → h' = h) ∧
        (deref h portfolioData ≫= portfolio = None → h' = h) ∧
        (∀ cats, deref h portfolioData ≫= portfolio = Some cats →
           deref h' portfolioData
           = Some (mkPortfolioData (Some (mergeCats cats ts))) ∧
           docHistory (mergeCats cats ts)
           = (docHistory cats + opCount ts)%nat ∧
           (opCount ts ≠ 0%nat →
            deref h' portfolioData ≠ deref h portfolioData) ∧
           (∀ c s n,
              findAsset (mergeCats cats ts) c s n
              = mergedAsset (findAsset cats c s n) s n
                  (ts ≫= amountsOn c s n))).
Proof.
  intros ts. eexists. split; [apply mergeTransfers_run_double|].
  destruct portfolioData as [l|]; cbn [deref mbind option_bind].
  2:{ do 3 (split; [done|]). intros cats Hc. discriminate Hc. }
  destruct transfers as [ts'|]; cbn [or_default] in ts; subst ts.
  2:{ do 3 (split; [done|]). intros cats Hc.
      destruct (h !! l) as [[p]|]; cbn in Hc; [|done]. rewrite Hc.
      split; [done|]. split; [apply mergeCats_history|].
      split; [done|]. intros c s n. apply mergeCats_findAsset_double. }
  destruct (h !! l) as [[[cats|]]|] eqn:Hl; cbn [mbind option_bind portfolio];
    [|do 3 (split; [done|]); intros cats Hc; discriminate Hc..].
  split; [|split; [|split; [done|]]].
  - intros l' Hne. apply lookup_insert_ne. congruence.
  - intros Hops. rewrite mergeCats_no_op by done. by apply insert_id.
  - intros cats' [= <-]. rewrite lookup_insert_eq.
    split; [done|]. split; [apply mergeCats_history|].
    split; [|intros c s n; apply mergeCats_findAsset_double].
    intros Hops [= Heq].
    pose proof (mergeCats_history ts' cats) as Hh. rewrite Heq in Hh. lia.
Qed.

Lemma mergeTransfers_in_place_witness :
  ∃ h', mergeTransfers (Some 1%positive)
          (Some [deposit "crypto" "Binance" "BTC" 200]) (heap_btc 500)
        = Returned (Some 1%positive) h' ∧
        deref h' (Some 1%positive) ≠ deref (heap_btc 500) (Some 1%positive) ∧
        findAsset
          (mergeCats [mkCategory "crypto" "Crypto" "#f6ad55"
                        [plainItem "BTC" "Binance" 500]]
             [deposit "crypto" "Binance" "BTC" 200])
          "crypto" "Binance" "BTC"
        = Some (mkItem "BTC" "Binance" 700 (Some 500) (Some true)
                  (Some 200) (Some [200])).
Proof.
  destruct (mergeTransfers_in_place (heap_btc 500) (Some 1%positive)
              (Some [deposit "crypto" "Binance" "BTC" 200]))
    as (h' & Hrun & _ & _ & _ & H).
  exists h'. split; [exact Hrun|].
  destruct (H [mkCategory "crypto" "Crypto" "#f6ad55"
                 [plainItem "BTC" "Binance" 500]] eq_refl)
    as (_ & _ & Hne & Hfind).
  split; [apply Hne; vm_compute; discriminate|].
  cbn [or_default] in Hfind. rewrite Hfind. vm_compute. reflexivity.
Defined.

(** ** Adjustment aggregator *)

Lemma addDeposit_lookup key amount (m : gmap string Adjustment) k :
  inherited k = false →
  addDeposit key amount m !! k
  = if decide (key = k)
    then let a := or_default zeroAdjustment (m !! k) in
         Some (mkAdjustment (deposits a + amount) (withdraws a)
                 (net a + amount))
    else m !! k.
Proof.
  intros Hk. unfold addDeposit. destruct (decide (key = k)) as [->|Hne].
  - rewrite Hk. apply lookup_insert_eq.
  - destruct (inherited key); [done|]. by apply lookup_insert_ne.
Qed.

Lemma addWithdraw_lookup key amount (m : gmap string Adjustment) k :
  inherited k = false →
  addWithdraw key amount m !! k
  = if decide (key = k)
    then let a := or_default zeroAdjustment (m !! k) in
         Some (mkAdjustment (deposits a) (withdraws a + amount)
                 (net a - amount))
    else m !! k.
Proof.
  intros Hk. unfold addWithdraw. destruct (decide (key = k)) as [->|Hne].
  - rewrite Hk. apply lookup_insert_eq.
  - destruct (inherited key); [done|]. by apply lookup_insert_ne.
Qed.

(** An inherited name never becomes an entry. *)
Lemma adjust_step_inherited (m : gmap string Adjustment) t k :
  inherited k = true → adjust_step m t !! k = m !! k.
Proof.
  intros Hk.
  assert (Hd : ∀ key a (m' : gmap string Adjustment),
            addDeposit key a m' !! k = m' !! k).
  { intros key a m'. unfold addDeposit.
    destruct (inherited key) eqn:Hkey; [done|].
    apply lookup_insert_ne. congruence. }
  assert (Hw : ∀ key a (m' : gmap string Adjustment),
            addWithdraw key a m' !! k = m' !! k).
  { intros key a m'. unfold addWithdraw.
    destruct (inherited key) eqn:Hkey; [done|].
    apply lookup_insert_ne. congruence. }
  destruct t; cbn [adjust_step]; by rewrite ?Hd, ?Hw.
Qed.

(** One transfer, seen on the three accumulators of a key. *)
Lemma adjust_step_entry (m : gmap string Adjustment) t k :
  inherited k = false →
  let a := or_default zeroAdjustment (m !! k) in
  let a' := or_default zeroAdjustment (adjust_step m t !! k) in
  deposits a' = foldl PrimFloat.add (deposits a) (inflow k t) ∧
  withdraws a' = foldl PrimFloat.add (withdraws a) (outflow k t) ∧
  net a' = runNet (net a) (netStep k t) ∧
  (is_Some (adjust_step m t !! k) ↔ is_Some (m !! k) ∨ netStep k t ≠ []).
Proof.
  intros Hk. destruct t; cbn [adjust_step inflow outflow netStep]; cbn zeta.
  - rewrite addDeposit_lookup by done. case_decide; cbn.
    + split_and!; try done. split; [auto | eauto].
    + split_and!; try done. split; [auto | by intros [?|?]].
  - rewrite addWithdraw_lookup by done. case_decide; cbn.
    + split_and!; try done. split; [auto | eauto].
    + split_and!; try done. split; [auto | by intros [?|?]].
  - rewrite addDeposit_lookup, addWithdraw_lookup by done.
    repeat case_decide; cbn.
    + split_and!; try done. split; [auto | eauto].
    + split_and!; try done. split; [auto | eauto].
    + split_and!; try done. split; [auto | eauto].
    + split_and!; try done. split; [auto | by intros [?|?]].
  - split_and!; try done. split; [auto | by intros [?|?]].
Qed.

Lemma adjust_foldl_inherited ts (m : gmap string Adjustment) k :
  inherited k = true → foldl adjust_step m ts !! k = m !! k.
Proof.
  intros Hk. revert m. induction ts as [|t ts IH]; intros m; [done|].
  cbn [foldl]. by rewrite IH, adjust_step_inherited.
Qed.

(** The whole list, seen on the three accumulators of a key. *)
Lemma adjust_foldl_entry ts (m : gmap string Adjustment) k :
  inherited k = false →
  let a := or_default zeroAdjustment (m !! k) in
  let a' := or_default zeroAdjustment (foldl adjust_step m ts !! k) in
  deposits a' = foldl PrimFloat.add (deposits a) (inflows k ts) ∧
  withdraws a' = foldl PrimFloat.add (withdraws a) (outflows k ts) ∧
  net a' = runNet (net a) (netSteps k ts) ∧
  (is_Some (foldl adjust_step m ts !! k)
   ↔ is_Some (m !! k) ∨ netSteps k ts ≠ []).
Proof.
  intros Hk. revert m. induction ts as [|t ts IH]; intros m.
  - cbn. split_and!; try done. split; [auto | by intros [?|?]].
  - cbn [foldl]. unfold inflows, outflows, netSteps, runNet.
    cbn [mbind list_bind]. rewrite !foldl_app.
    destruct (IH (adjust_step m t)) as (-> & -> & -> & ->).
    destruct (adjust_step_entry m t k Hk) as (-> & -> & -> & ->).
    split_and!; try done.
    assert (netStep k t ++ (ts ≫= netStep k) ≠ []
            ↔ netStep k t ≠ [] ∨ ts ≫= netStep k ≠ []) as ->; [|tauto].
    split.
    + intros H. destruct (netStep k t); [|by left]. by right.
    + intros [H|H]; intros Heq; apply app_eq_nil in Heq as [? ?]; done.
Qed.

(** C10 (as stated, refuted).  A deposit of 0.1, a withdrawal of 0.3 and a
    deposit of 0.2 on one key leave [deposits = 0.1 + 0.2],
    [withdraws = 0.3] and [net = (0.1 - 0.3) + 0.2]: the net is
    2.7755575615628914e-17, deposits minus withdrawals is
    5.551115123125783e-17. *)
Lemma getAdjustmentsPerAsset_net_differs :
  ¬ net_is_deposits_minus_withdraws
      (getAdjustmentsPerAsset (Some transfers_rounding)
         (Some doc_two_assets)).
Proof.
  intros H.
  pose proof (H "crypto_binance_btc" _ eq_refl) as Hnet.
  vm_compute in Hnet. discriminate Hnet.
Qed.

Example getAdjustmentsPerAsset_rounding_values :
  getAdjustmentsPerAsset (Some transfers_rounding) (Some doc_two_assets)
    !! "crypto_binance_btc"
  = Some (mkAdjustment 0.30000000000000004 0.3 2.7755575615628914e-17) ∧
  0.30000000000000004 - 0.3 = 5.551115123125783e-17.
Proof. vm_compute. done. Qed.

(** C10 (amended).  [getAdjustmentsPerAsset] returns the empty map whenever
    the document argument is null, whatever the transfer list, and whenever
    the list is null; the document is otherwise never read, so any two
    documents give the same map.  An entry of the returned map belongs to a
    key that some deposit, withdraw or move of the list produces and that is
    no inherited property name, and it holds three accumulators, each
    rounded on its own: [deposits] is the sum, in list order from 0, of the
    amounts deposited or moved to the key, [withdraws] the sum of the
    amounts withdrawn or moved from it, and [net] the result of adding the
    former and subtracting the latter in list order from 0.  So [net] is
    computed on its own and need not be [deposits - withdraws]. *)
Theorem getAdjustmentsPerAsset_spec
    (transfers : option (list Transfer)) (ts : list Transfer)
    (d d' : PortfolioData) (key : string) (a : Adjustment) :
  getAdjustmentsPerAsset transfers None = ∅ ∧
  getAdjustmentsPerAsset None (Some d) = ∅ ∧
  getAdjustmentsPerAsset transfers (Some d)
    = getAdjustmentsPerAsset transfers (Some d') ∧
  (getAdjustmentsPerAsset (Some ts) (Some d) !! key = Some a →
   inherited key = false ∧ netSteps key ts ≠ [] ∧
   deposits a = Fsum (inflows key ts) ∧
   withdraws a = Fsum (outflows key ts) ∧
   net a = runNet 0 (netSteps key ts)).
Proof.
  split; [by destruct transfers|]. split; [done|]. split; [done|].
  cbn [getAdjustmentsPerAsset]. intros Ha.
  destruct (inherited key) eqn:Hk.
  { rewrite adjust_foldl_inherited, lookup_empty in Ha by done. done. }
  split; [done|].
  destruct (adjust_foldl_entry ts ∅ key Hk) as (Hd & Hw & Hn & Hsome).
  rewrite Ha, lookup_empty in Hd, Hw, Hn. rewrite Ha, lookup_empty in Hsome.
  split; [|done].
  destruct (proj1 Hsome) as [[? ?]|H]; [eauto|done..].
Qed.

Lemma getAdjustmentsPerAsset_spec_witness :
  getAdjustmentsPerAsset (Some transfers_rounding) None = ∅ ∧
  net (mkAdjustment 0.30000000000000004 0.3 2.7755575615628914e-17)
  = runNet 0 (netSteps "crypto_binance_btc" transfers_rounding).
Proof.
  destruct (getAdjustmentsPerAsset_spec (Some transfers_rounding)
              transfers_rounding doc_two_assets doc_two_assets
              "crypto_binance_btc"
              (mkAdjustment 0.30000000000000004 0.3 2.7755575615628914e-17))
    as (H0 & _ & _ & H).
  split; [exact H0|]. apply H. vm_compute. reflexivity.
Defined.

(** ** The keys of the adjustment map *)

Lemma netStep_targets k t :
  netStep k t ≠ []
  ↔ ∃ c s n, (c, s, n) ∈ targets t ∧ k = getAssetKey c s n.
Proof.
  destruct t; cbn [netStep targets].
  - case_decide as Hk; split; try done.
    + intros _. eexists _, _, _. split; [apply list_elem_of_here | done].
    + intros (c & s & n & [= -> -> ->]%list_elem_of_singleton & ->). done.
  - case_decide as Hk; split; try done.
    + intros _. eexists _, _, _. split; [apply list_elem_of_here | done].
    + intros (c & s & n & [= -> -> ->]%list_elem_of_singleton & ->). done.
  - split.
    + intros H. repeat case_decide; try done.
      all: try (eexists _, _, _; split; [apply list_elem_of_here | done]).
      eexists _, _, _.
      split; [apply list_elem_of_further, list_elem_of_here | done].
    + intros (c & s & n & Hin & ->).
      apply elem_of_cons in Hin as [[= -> -> ->]|Hin];
        [|apply list_elem_of_singleton in Hin as [= -> -> ->]];
        repeat case_decide; done.
  - split; [done|]. intros (c & s & n & []%elem_of_nil & _).
Qed.

Lemma netSteps_targets k ts :
  netSteps k ts ≠ []
  ↔ ∃ t c s n, t ∈ ts ∧ (c, s, n) ∈ targets t ∧ k = getAssetKey c s n.
Proof.
  unfold netSteps. induction ts as [|t ts IH].
  - split; [done|]. intros (t & c & s & n & []%elem_of_nil & _).
  - cbn [mbind list_bind].
    assert (netStep k t ++ (ts ≫= netStep k) ≠ []
            ↔ netStep k t ≠ [] ∨ ts ≫= netStep k ≠ []) as ->.
    { split.
      - intros H. destruct (netStep k t); [|by left]. by right.
      - intros [H|H]; intros Heq; apply app_eq_nil in Heq as [? ?]; done. }
    rewrite IH, netStep_targets. split.
    + intros [(c & s & n & Htg & ->)|(t' & c & s & n & Ht & Htg & ->)].
      * exists t, c, s, n. split; [apply list_elem_of_here | done].
      * exists t', c, s, n. split; [by apply list_elem_of_further | done].
    + intros (t' & c & s & n & [->|Ht]%elem_of_cons & Htg & ->).
      * left. eauto.
      * right. eauto 8.
Qed.

(** An asset key holds an underscore, and no upper-case letter. *)
Lemma string_chars_app s1 s2 :
  string_chars (s1 +:+ s2) = string_chars s1 ++ string_chars s2.
Proof.
  induction s1 as [|c s1 IH]; [done|].
  change (string_chars (String c (s1 +:+ s2))
          = c :: string_chars s1 ++ string_chars s2).
  cbn [string_chars]. by rewrite IH.
Qed.

Lemma toLowerCase_chars s :
  string_chars (toLowerCase s) = ascii_toLowerCase <$> string_chars s.
Proof. induction s as [|c s IH]; cbn; [done|]. by rewrite IH. Qed.

Lemma replace_ws_runs_keeps in_run s c :
  is_whitespace c = false → c ∈ string_chars s →
  c ∈ string_chars (replace_ws_runs in_run s).
Proof.
  intros Hc. revert in_run. induction s as [|c' s IH]; intros in_run; cbn.
  - intros []%elem_of_nil.
  - intros [->|Hin]%elem_of_cons.
    + rewrite Hc. apply list_elem_of_here.
    + destruct (is_whitespace c'), in_run; cbn; auto using list_elem_of_further.
Qed.

Lemma getAssetKey_underscore c s n :
  "_"%char ∈ string_chars (getAssetKey c s n).
Proof.
  unfold getAssetKey. apply replace_ws_runs_keeps; [done|].
  rewrite toLowerCase_chars, !string_chars_app, !fmap_app.
  apply elem_of_app. right. apply elem_of_app. left.
  apply list_elem_of_here.
Qed.

(** [__proto__] is the one inherited property name a key can be. *)
Lemma getAssetKey_inherited c s n :
  inherited (getAssetKey c s n) = true ↔ getAssetKey c s n = "__proto__".
Proof.
  split; [|by intros ->].
  intros Hin. apply bool_decide_eq_true in Hin.
  pose proof (getAssetKey_underscore c s n) as Hu.
  assert (Hk : Forall key_char (string_chars (getAssetKey c s n))).
  { apply replace_ws_runs_key_chars, toLowerCase_not_upper. }
  unfold prototype_names in Hin.
  repeat (apply elem_of_cons in Hin as [Heq|Hin]);
    [..|by apply elem_of_nil in Hin];
    try exact Heq; exfalso; rewrite Heq in Hu, Hk; clear Heq;
    first [ by (apply (bool_decide_pack _) in Hu; vm_compute in Hu)
          | by (apply (bool_decide_pack _) in Hk; vm_compute in Hk) ].
Qed.

(** X22. The adjustment map has a property for a key exactly when some
    deposit, withdraw or move of the list produces that key and the key is
    no inherited property name: for an inherited name the test
    [!adjustments[key]] reads the inherited value, so no property is made.
    The map returned has no property [__proto__], and [__proto__] is the
    one inherited name that components written in ASCII can produce. *)
Theorem getAdjustmentsPerAsset_entry
    (ts : list Transfer) (d : PortfolioData) (k : string) :
  let adjustments := getAdjustmentsPerAsset (Some ts) (Some d) in
  (is_Some (adjustments !! k)
   ↔ inherited k = false ∧
     ∃ t c s n, t ∈ ts ∧ (c, s, n) ∈ targets t ∧ k = getAssetKey c s n) ∧
  adjustments !! "__proto__" = None ∧
  (∀ c s n, is_ascii c → is_ascii s → is_ascii n →
     inherited (getAssetKey c s n) = true →
     getAssetKey c s n = "__proto__").
Proof.
  cbn [getAdjustmentsPerAsset]. split; [|split].
  - rewrite <- netSteps_targets. destruct (inherited k) eqn:Hk.
    + rewrite adjust_foldl_inherited, lookup_empty by done. split.
      * by intros [? ?].
      * by intros [? _].
    + destruct (adjust_foldl_entry ts ∅ k Hk) as (_ & _ & _ & ->).
      rewrite lookup_empty. split.
      * intros [[? ?]|H]; done.
      * intros [_ H]. by right.
  - by rewrite adjust_foldl_inherited, lookup_empty.
  - intros c s n _ _ _. apply getAssetKey_inherited.
Qed.

Lemma getAdjustmentsPerAsset_entry_witness :
  is_Some (getAdjustmentsPerAsset (Some [move_300_3]) (Some doc_two_assets)
             !! "cash_bank_usd").
Proof.
  apply (getAdjustmentsPerAsset_entry [move_300_3] doc_two_assets
           "cash_bank_usd").
  split; [reflexivity|].
  exists move_300_3, "cash", "Bank", "USD".
  split; [apply list_elem_of_here|].
  split; [apply list_elem_of_further, list_elem_of_here | reflexivity].
Defined.
(** ** The maps of a snapshot *)

Lemma insert_foldl_lookup {V} (l : list (string * V)) (m : gmap string V) k :
  foldl (λ acc e, <[e.1 := e.2]> acc) m l !! k
  = match last (filter (λ e, e.1 = k) l) with
    | Some e => Some e.2
    | None => m !! k
    end.
Proof.
  revert m. induction l as [|e l IH]; intros m; [done|].
  cbn [foldl]. rewrite IH.
  destruct (decide (e.1 = k)) as [He|He].
  - rewrite filter_cons_True by done.
    destruct (filter _ l) as [|e' l'] eqn:Hf.
    + cbn [last]. rewrite <- He. apply lookup_insert_eq.
    + rewrite last_cons_cons.
      destruct (last (e' :: l')) eqn:Hlast; [done|].
      by apply last_None in Hlast.
  - rewrite filter_cons_False by done.
    destruct (last _); [done|]. by apply lookup_insert_ne.
Qed.

Lemma insert_foldl_last_wins {V} (l1 l2 : list (string * V))
    (m : gmap string V) k v :
  k ∉ l2.*1 →
  foldl (λ acc e, <[e.1 := e.2]> acc) m (l1 ++ (k, v) :: l2) !! k = Some v.
Proof.
  intros Hk. rewrite insert_foldl_lookup, filter_app, filter_cons_True by done.
  assert (filter (λ e : string * V, e.1 = k) l2 = []) as ->.
  { apply elem_of_nil_inv. intros e [He Hin]%list_elem_of_filter.
    apply Hk. rewrite <- He. by apply list_elem_of_fmap_2. }
  by rewrite last_snoc.
Qed.

Lemma insert_foldl_is_Some {V} (l : list (string * V)) k :
  is_Some (foldl (λ acc e, <[e.1 := e.2]> acc) (∅ : gmap string V) l !! k)
  ↔ k ∈ l.*1.
Proof.
  rewrite insert_foldl_lookup, lookup_empty.
  destruct (last (filter (λ e, e.1 = k) l)) as [e|] eqn:Hl.
  - apply last_Some_elem_of, list_elem_of_filter in Hl as [<- He].
    split; [intros _; by apply list_elem_of_fmap_2 | eauto].
  - apply last_None in Hl. split; [intros [? ?]; done|].
    intros [e [-> He]]%list_elem_of_fmap.
    assert (e ∈ filter (λ e' : string * V, e'.1 = e.1) l) as Hin
      by (by apply list_elem_of_filter).
    rewrite Hl in Hin. by apply elem_of_nil in Hin.
Qed.

(** Assignments to a plain object: those to [__proto__] add nothing. *)
Lemma obj_set_foldl {V} (l : list (string * V)) (m : gmap string V) :
  foldl (λ acc e, obj_set e.1 e.2 acc) m l
  = foldl (λ acc e, <[e.1 := e.2]> acc) m
      (filter (λ e, e.1 ≠ "__proto__") l).
Proof.
  revert m. induction l as [|e l IH]; intros m; [done|].
  cbn [foldl]. unfold obj_set at 2.
  destruct (decide (e.1 = "__proto__")) as [He|He].
  - rewrite filter_cons_False by (by intros ?). apply IH.
  - rewrite filter_cons_True by done. apply IH.
Qed.

Lemma obj_set_foldl_is_Some {V} (l : list (string * V)) k :
  is_Some (foldl (λ acc e, obj_set e.1 e.2 acc) (∅ : gmap string V) l !! k)
  ↔ k ≠ "__proto__" ∧ k ∈ l.*1.
Proof.
  rewrite obj_set_foldl, insert_foldl_is_Some, !list_elem_of_fmap. split.
  - intros [e [-> [He Hin]%list_elem_of_filter]]. eauto.
  - intros [Hk [e [-> Hin]]]. exists e. split; [done|].
    by apply list_elem_of_filter.
Qed.

Lemma obj_set_foldl_last_wins {V} (l1 l2 : list (string * V))
    (m : gmap string V) k v :
  k ∉ l2.*1 → k ≠ "__proto__" →
  foldl (λ acc e, obj_set e.1 e.2 acc) m (l1 ++ (k, v) :: l2) !! k = Some v.
Proof.
  intros Hk Hp. rewrite obj_set_foldl, filter_app, filter_cons_True by done.
  apply insert_foldl_last_wins.
  intros [e [-> [_ Hin]%list_elem_of_filter]]%list_elem_of_fmap.
  apply Hk. by apply list_elem_of_fmap_2.
Qed.

Lemma addItem_foldl_maps cat items cd am :
  let r := foldl (addItem cat) (cd, am) items in
  cd_items r.1
  = foldl (λ acc e, obj_set e.1 e.2 acc) (cd_items cd)
      ((λ item, (ad_key (assetDataOf cat item), assetDataOf cat item))
         <$> items) ∧
  r.2 = foldl (λ acc e, obj_set e.1 e.2 acc) am
          ((λ item, (ad_key (assetDataOf cat item), assetDataOf cat item))
             <$> items).
Proof.
  revert cd am. induction items as [|i items IH]; intros cd am; [done|].
  cbn [foldl fmap list_fmap].
  destruct (addItem cat (cd, am) i) as [cd1 am1] eqn:Hst.
  unfold addItem in Hst. injection Hst as <- <-.
  exact (IH _ _).
Qed.

Lemma addCategory_assetMap s cat :
  snap_assetMap (addCategory s cat)
  = foldl (λ acc e, obj_set e.1 e.2 acc) (snap_assetMap s) (catEntries cat).
Proof.
  unfold addCategory, catEntries.
  pose proof (addItem_foldl_maps cat (cat_items cat)
    (mkCatData (cat_id cat) (cat_title cat) (cat_color cat) 0 ∅)
    (snap_assetMap s)) as (_ & H).
  destruct (foldl _ _ _) as [cd am]. exact H.
Qed.

Lemma addCategory_foldl_assetMap cats s :
  snap_assetMap (foldl addCategory s cats)
  = foldl (λ acc e, obj_set e.1 e.2 acc) (snap_assetMap s) (docEntries cats).
Proof.
  revert s. induction cats as [|cat cats IH]; intros s; [done|].
  cbn [foldl]. rewrite IH, addCategory_assetMap.
  unfold docEntries. cbn [mbind list_bind]. by rewrite foldl_app.
Qed.

Lemma docEntries_keys cats key :
  key ∈ (docEntries cats).*1
  ↔ ∃ cat item, cat ∈ cats ∧ item ∈ cat_items cat ∧
                getAssetKey (cat_id cat) (item_source item) (item_name item)
                = key.
Proof.
  unfold docEntries, catEntries. rewrite list_elem_of_fmap. split.
  - intros [[k a] [-> [cat [Hin Hcat]]%list_elem_of_bind]].
    apply list_elem_of_fmap in Hin as [item [[= -> ->] Hitem]].
    by exists cat, item.
  - intros (cat & item & Hcat & Hitem & <-).
    exists (ad_key (assetDataOf cat item), assetDataOf cat item).
    split; [done|]. apply list_elem_of_bind. exists cat. split; [|done].
    apply list_elem_of_fmap. by exists item.
Qed.

(** X8. The properties of the asset map of a snapshot are exactly the keys
    of the items of the document other than [__proto__] (an item of that key
    replaces the prototype of the map and adds no property); the record
    filed under a key carries that key; and when several items share a key,
    the last one in document order is the one kept. *)
Theorem buildSnapshot_assetMap
    (d : PortfolioData) (ts : list Transfer) (cats : list Category) :
  portfolio d = Some cats →
  let assetMap := snap_assetMap (buildSnapshot (Some d) ts) in
  (∀ key, is_Some (assetMap !! key)
          ↔ key ≠ "__proto__" ∧
            ∃ cat item, cat ∈ cats ∧ item ∈ cat_items cat ∧
               getAssetKey (cat_id cat) (item_source item) (item_name item)
               = key) ∧
  (∀ key a, assetMap !! key = Some a → ad_key a = key) ∧
  (∀ l1 l2 key a, docEntries cats = l1 ++ (key, a) :: l2 → key ∉ l2.*1 →
                  key ≠ "__proto__" → assetMap !! key = Some a).
Proof.
  intros Hd assetMap.
  assert (Ham : assetMap
                = foldl (λ acc e, obj_set e.1 e.2 acc) ∅ (docEntries cats)).
  { unfold assetMap, buildSnapshot. rewrite Hd.
    apply addCategory_foldl_assetMap. }
  rewrite Ham. split; [|split].
  - intros key. by rewrite obj_set_foldl_is_Some, docEntries_keys.
  - intros key a. rewrite obj_set_foldl, insert_foldl_lookup, lookup_empty.
    destruct (last _) as [e|] eqn:Hl; [|done].
    intros [= <-].
    apply last_Some_elem_of, list_elem_of_filter in Hl as [<- He].
    apply list_elem_of_filter in He as [_ He].
    unfold docEntries, catEntries in He.
    apply list_elem_of_bind in He as [cat [Hin _]].
    apply list_elem_of_fmap in Hin as [item [-> _]]. done.
  - intros l1 l2 key a -> Hk Hp. by apply obj_set_foldl_last_wins.
Qed.

Lemma buildSnapshot_assetMap_witness :
  ad_val <$> snap_assetMap (buildSnapshot (Some doc_key_clash) [])
               !! "crypto_binance_btc"
  = Some 2.
Proof.
  destruct (buildSnapshot_assetMap doc_key_clash []
              [mkCategory "crypto" "Crypto" "#f6ad55"
                 [plainItem "BTC" "Binance" 1; plainItem "btc" "binance" 2]]
              eq_refl) as (_ & _ & H).
  rewrite (H [("crypto_binance_btc",
               assetDataOf (mkCategory "crypto" "Crypto" "#f6ad55" [])
                 (plainItem "BTC" "Binance" 1))]
             [] "crypto_binance_btc"
             (assetDataOf (mkCategory "crypto" "Crypto" "#f6ad55" [])
                (plainItem "btc" "binance" 2)));
    [reflexivity | reflexivity | apply not_elem_of_nil | discriminate].
Defined.

Lemma addCategory_categories_eq s cat :
  snap_categories (addCategory s cat)
  = obj_set (cat_id cat) (catDataOf cat) (snap_categories s).
Proof.
  unfold addCategory, catDataOf, catEntries.
  pose proof (addItem_foldl_maps cat (cat_items cat)
    (mkCatData (cat_id cat) (cat_title cat) (cat_color cat) 0 ∅)
    (snap_assetMap s)) as (Hi & _).
  pose proof (addItem_foldl_catData cat (cat_items cat)
    (mkCatData (cat_id cat) (cat_title cat) (cat_color cat) 0 ∅)
    (snap_assetMap s)) as (Htot & Hid & Ht & Hc).
  destruct (foldl _ _ _) as [[cid ctitle ccolor ctotal citems] am].
  cbn in *. by subst.
Qed.

Lemma addCategory_foldl_categories cats s :
  snap_categories (foldl addCategory s cats)
  = foldl (λ acc e, obj_set e.1 e.2 acc) (snap_categories s)
      ((λ cat, (cat_id cat, catDataOf cat)) <$> cats).
Proof.
  revert s. induction cats as [|cat cats IH]; intros s; [done|].
  cbn [foldl fmap list_fmap]. by rewrite IH, addCategory_categories_eq.
Qed.

(** X9. The properties of the category map of a snapshot are exactly the
    identifiers of the categories of the document other than [__proto__];
    for an identifier carried by several categories the last one is kept;
    and the record of a category has its identifier, title and colour, the
    sum of its item values (added in item order from 0) as total, and an
    item map whose properties are exactly the keys of its items other than
    [__proto__]. *)
Theorem buildSnapshot_categories
    (d : PortfolioData) (ts : list Transfer) (cats : list Category) :
  portfolio d = Some cats →
  let categories := snap_categories (buildSnapshot (Some d) ts) in
  (∀ id, is_Some (categories !! id)
         ↔ id ≠ "__proto__" ∧ id ∈ cat_id <$> cats) ∧
  (∀ l1 cat l2, cats = l1 ++ cat :: l2 → cat_id cat ∉ (cat_id <$> l2) →
     cat_id cat ≠ "__proto__" →
     ∃ cd, categories !! cat_id cat = Some cd ∧
           cd_id cd = cat_id cat ∧ cd_title cd = cat_title cat ∧
           cd_color cd = cat_color cat ∧
           cd_total cd = Fsum (item_val <$> cat_items cat) ∧
           ∀ key, is_Some (cd_items cd !! key)
                  ↔ key ≠ "__proto__" ∧
                    ∃ item, item ∈ cat_items cat ∧
                       getAssetKey (cat_id cat) (item_source item)
                         (item_name item) = key).
Proof.
  intros Hd categories.
  assert (Hc : categories
               = foldl (λ acc e, obj_set e.1 e.2 acc) ∅
                   ((λ cat, (cat_id cat, catDataOf cat)) <$> cats)).
  { unfold categories, buildSnapshot. rewrite Hd.
    apply addCategory_foldl_categories. }
  rewrite Hc. split.
  - intros id. rewrite obj_set_foldl_is_Some, <- list_fmap_compose.
    reflexivity.
  - intros l1 cat l2 -> Hfresh Hp. exists (catDataOf cat).
    rewrite fmap_app, fmap_cons. split.
    { apply obj_set_foldl_last_wins; [|done].
      by rewrite <- list_fmap_compose. }
    do 3 (split; [done|]). split; [apply categoryTotal_Fsum|].
    intros key. cbn [catDataOf cd_items].
    rewrite obj_set_foldl_is_Some. unfold catEntries.
    rewrite <- list_fmap_compose, list_elem_of_fmap. cbn.
    apply and_iff_compat_l. split.
    + intros [item [-> Hitem]]. by exists item.
    + intros [item [Hitem <-]]. by exists item.
Qed.

Lemma buildSnapshot_categories_witness :
  ∃ cd, snap_categories (buildSnapshot (Some doc_duplicate_category) [])
          !! "crypto" = Some cd ∧
        cd_title cd = "Crypto (cold)" ∧ cd_total cd = Fsum [2].
Proof.
  destruct (buildSnapshot_categories doc_duplicate_category []
              [mkCategory "crypto" "Crypto" "#f6ad55"
                 [plainItem "BTC" "Binance" 1];
               mkCategory "crypto" "Crypto (cold)" "#f6ad55"
                 [plainItem "ETH" "Ledger" 2]] eq_refl) as (_ & H).
  destruct (H [mkCategory "crypto" "Crypto" "#f6ad55"
                 [plainItem "BTC" "Binance" 1]]
              (mkCategory "crypto" "Crypto (cold)" "#f6ad55"
                 [plainItem "ETH" "Ledger" 2]) [] eq_refl)
    as (cd & Hcd & _ & Ht & _ & Htot & _).
  { apply not_elem_of_nil. }
  { discriminate. }
  exists cd. split; [exact Hcd | split; [exact Ht | exact Htot]].
Defined.

(** ** What merging keeps of a document *)

Lemma touchAsset_tracks o m amount :
  itemTracks o m → itemTracks o (touchAsset m amount).
Proof.
  intros [->|(amounts & Hne & ->)]; right.
  - by exists [amount].
  - exists (amounts ++ [amount]). split; [by destruct amounts|].
    apply touchAsset_adjusted_double.
Qed.

Lemma applyToItems_tracks o items source assetName amount :
  itemsTrack o items →
  itemsTrack o (applyToItems items source assetName amount).
Proof.
  intros Htr j oi Hj. destruct (Htr j oi Hj) as (mi & Hmi & Hmt).
  unfold applyToItems.
  destruct (list_find _ items) as [[k asset]|] eqn:Hfind.
  - apply list_find_Some in Hfind as (Hk & _ & _).
    destruct (decide (k = j)) as [->|Hne].
    + exists (touchAsset asset amount). split.
      * apply list_lookup_insert_eq. by eapply lookup_lt_Some.
      * assert (mi = asset) as -> by congruence.
        by apply touchAsset_tracks.
    + exists mi. split; [|done]. by rewrite list_lookup_insert_ne.
  - exists mi. split; [|done]. by apply lookup_app_l_Some.
Qed.

Lemma applyToPortfolio_tracks o cats categoryId source assetName amount :
  docTracks o cats →
  docTracks o (applyToPortfolio cats categoryId source assetName amount).
Proof.
  intros Htr i oc Hi. destruct (Htr i oc Hi) as (mc & Hmc & Hct).
  unfold applyToPortfolio.
  destruct (list_find _ cats) as [[k category]|] eqn:Hfind.
  - apply list_find_Some in Hfind as (Hk & _ & _).
    destruct (decide (k = i)) as [->|Hne].
    + assert (mc = category) as -> by congruence.
      eexists. split.
      * apply list_lookup_insert_eq. by eapply lookup_lt_Some.
      * destruct Hct as (Hid & Ht & Hc & Hitems).
        repeat split; try done. cbn [withItems cat_items].
        by apply applyToItems_tracks.
    + exists mc. split; [|done]. by rewrite list_lookup_insert_ne.
  - exists mc. split; [|done]. by apply lookup_app_l_Some.
Qed.

Lemma docTracks_refl cats : docTracks cats cats.
Proof.
  intros i oc Hi. exists oc. split; [done|]. repeat split.
  intros j oi Hj. exists oi. split; [done|]. by left.
Qed.

Lemma mergeCats_tracks ts o cats :
  docTracks o cats → docTracks o (mergeCats cats ts).
Proof.
  unfold mergeCats. revert cats.
  induction ts as [|t ts IH]; intros cats Htr; [done|].
  cbn [foldl]. apply IH.
  destruct t; cbn [stepCats]; auto using applyToPortfolio_tracks.
Qed.

(** X10. Merging transfers into a document never removes, moves or renames
    anything: every category stays at its position with its identifier,
    title and colour, every item stays at its position, and each item is
    either untouched or the same asset with a non-empty list of amounts
    applied: virtual, with that list appended to its history, each amount
    added to its value and to its adjustment by one rounded addition, and
    the value before the first of them as original value unless one was
    set. *)
Theorem mergeTransfers_tracks
    (h : gmap positive PortfolioData) (l : loc) (cats : list Category)
    (transfers : option (list Transfer)) :
  h !! l = Some (mkPortfolioData (Some cats)) →
  ∃ h' cats',
    mergeTransfers (Some l) transfers h = Returned (Some l) h' ∧
    h' !! l = Some (mkPortfolioData (Some cats')) ∧
    (length cats <= length cats')%nat ∧
    docTracks cats cats'.
Proof.
  intros Hl. rewrite mergeTransfers_run_double.
  destruct transfers as [ts|].
  - rewrite Hl. cbn [mbind option_bind portfolio].
    exists (<[l := mkPortfolioData (Some (mergeCats cats ts))]> h),
           (mergeCats cats ts).
    split; [done|]. split; [apply lookup_insert_eq|].
    pose proof (mergeCats_tracks ts cats cats (docTracks_refl cats)) as Htr.
    split; [|done].
    destruct (decide (length cats = 0)%nat) as [->|Hne]; [lia|].
    destruct (lookup_lt_is_Some_2 cats (length cats - 1)) as [oc Hoc]; [lia|].
    destruct (Htr _ _ Hoc) as (mc & Hmc & _).
    apply lookup_lt_Some in Hmc. lia.
  - exists h, cats. split; [done|]. split; [done|]. split; [lia|].
    apply docTracks_refl.
Qed.

Lemma mergeTransfers_tracks_witness :
  ∃ h' cats',
    mergeTransfers (Some 1%positive) (Some [move_300_3])
      {[ 1%positive := doc_two_assets ]}
    = Returned (Some 1%positive) h' ∧
    h' !! 1%positive = Some (mkPortfolioData (Some cats')) ∧
    (2 <= length cats')%nat ∧
    docTracks (or_default [] (portfolio doc_two_assets)) cats'.
Proof.
  apply (mergeTransfers_tracks {[ 1%positive := doc_two_assets ]} 1%positive
           (or_default [] (portfolio doc_two_assets))).
  reflexivity.
Defined.

(** ** Transfer targets in the snapshot and in the adjustment map *)

Lemma findAsset_Some cats c s n item :
  findAsset cats c s n = Some item →
  ∃ cat, cat ∈ cats ∧ cat_id cat = c ∧ item ∈ cat_items cat ∧
         item_name item = n ∧ item_source item = s.
Proof.
  unfold findAsset.
  destruct (list_find _ cats) as [[i cat]|] eqn:Hcat; [|done].
  cbn [fmap option_fmap option_map mbind option_bind snd].
  destruct (list_find _ (cat_items cat)) as [[j x]|] eqn:Hitem; [|done].
  intros [= <-].
  apply list_find_Some in Hcat as (Hi & Hid & _).
  apply list_find_Some in Hitem as (Hj & [Hn Hs] & _).
  exists cat. split; [by eapply list_elem_of_lookup_2|].
  split; [done|]. split; [by eapply list_elem_of_lookup_2 | done].
Qed.

Lemma amountsOn_targets ts t c s n :
  t ∈ ts → (c, s, n) ∈ targets t → ts ≫= amountsOn c s n ≠ [].
Proof.
  intros Ht Htg.
  assert (amountsOn c s n t ≠ []) as Hne.
  { destruct t; cbn [targets amountsOn] in *.
    - apply list_elem_of_singleton in Htg as [= -> -> ->].
      by rewrite decide_True.
    - apply list_elem_of_singleton in Htg as [= -> -> ->].
      by rewrite decide_True.
    - apply elem_of_cons in Htg as [[= -> -> ->]|Htg];
        [|apply list_elem_of_singleton in Htg as [= -> -> ->]];
        repeat case_decide; done.
    - by apply elem_of_nil in Htg. }
  induction ts as [|t' ts IH]; [by apply elem_of_nil in Ht|].
  cbn [mbind list_bind]. intros [H1 H2]%app_eq_nil.
  apply elem_of_cons in Ht as [->|Ht]; [done | by apply IH].
Qed.

(** X21. As the month loader combines them: after the merge, every target of
    a deposit, withdraw or move whose key is no inherited property name has
    that key both in the asset map of the snapshot of the merged document
    and in the adjustment map of the transfer list. *)
Theorem transfer_targets_are_keyed
    (h : gmap positive PortfolioData) (l : loc) (cats : list Category)
    (ts : list Transfer) (t : Transfer) (c s n : string) :
  h !! l = Some (mkPortfolioData (Some cats)) →
  t ∈ ts → (c, s, n) ∈ targets t → inherited (getAssetKey c s n) = false →
  ∃ h',
    mergeTransfers (Some l) (Some ts) h = Returned (Some l) h' ∧
    let key := getAssetKey c s n in
    is_Some (snap_assetMap (buildSnapshot (h' !! l) []) !! key) ∧
    is_Some (getAdjustmentsPerAsset (Some ts) (h' !! l) !! key).
Proof.
  intros Hl Ht Htarget Hk. rewrite mergeTransfers_run_double, Hl.
  cbn [mbind option_bind portfolio]. eexists. split; [done|].
  rewrite lookup_insert_eq. cbn zeta. split.
  - cbn [buildSnapshot portfolio].
    rewrite addCategory_foldl_assetMap. apply obj_set_foldl_is_Some.
    split; [by intros Hp; rewrite Hp in Hk|]. apply docEntries_keys.
    pose proof (mergeCats_findAsset_double ts cats c s n) as Hfind.
    unfold mergedAsset in Hfind.
    pose proof (amountsOn_targets ts t c s n Ht Htarget) as Hne.
    destruct (ts ≫= amountsOn c s n) as [|a amounts]; [done|].
    apply findAsset_Some in Hfind as (cat & Hcat & Hid & Hitem & Hn & Hs).
    eexists cat, _. split; [done|]. split; [exact Hitem|].
    by rewrite Hid, Hn, Hs.
  - cbn [getAdjustmentsPerAsset].
    apply (adjust_foldl_entry ts ∅ _ Hk). right.
    apply netSteps_targets. eauto 8.
Qed.

Lemma transfer_targets_are_keyed_witness :
  ∃ h',
    mergeTransfers (Some 1%positive) (Some [move_300_3])
      {[ 1%positive := doc_two_assets ]}
    = Returned (Some 1%positive) h' ∧
    is_Some (snap_assetMap (buildSnapshot (h' !! 1%positive) [])
               !! "cash_bank_usd").
Proof.
  destruct (transfer_targets_are_keyed {[ 1%positive := doc_two_assets ]}
              1%positive (or_default [] (portfolio doc_two_assets))
              [move_300_3] move_300_3 "cash" "Bank" "USD")
    as (h' & Hrun & Hkey & _).
  - reflexivity.
  - apply list_elem_of_here.
  - apply list_elem_of_further, list_elem_of_here.
  - reflexivity.
  - exists h'. split; [exact Hrun | exact Hkey].
Defined.

(** ** Merging into a category the document does not have *)

(** X24. A deposit into a category the document does not have appends a
    category with the deposit's category identifier as identifier and as
    title and the grey [#cbd5e0] as colour, holding one asset: the
    deposit's name and source, virtual, with original value 0 and with
    [0 + amount] as value and as adjustment.  Nothing else changes. *)
Theorem mergeTransfers_new_category
    (h : gmap positive PortfolioData) (l : loc) (cats : list Category)
    (c s n : string) (amount : float) :
  h !! l = Some (mkPortfolioData (Some cats)) →
  c ∉ (cat_id <$> cats) →
  ∃ h',
    mergeTransfers (Some l) (Some [deposit c s n amount]) h
    = Returned (Some l) h' ∧
    h' !! l
    = Some (mkPortfolioData
              (Some (cats ++
                     [mkCategory c c "#cbd5e0"
                        [mkItem n s (0 + amount) (Some 0) (Some true)
                           (Some (0 + amount)) (Some [amount])]]))).
Proof.
  intros Hl Hc. rewrite mergeTransfers_run_double, Hl.
  cbn [mbind option_bind portfolio]. eexists. split; [done|].
  rewrite lookup_insert_eq. do 2 f_equal.
  cbn [mergeCats foldl stepCats]. unfold applyToPortfolio.
  assert (list_find (λ c0, cat_id c0 = c) cats = None) as ->; [|done].
  apply list_find_None, Forall_forall. intros x Hx Hid.
  apply Hc. rewrite <- Hid. by apply list_elem_of_fmap_2.
Qed.

Lemma mergeTransfers_new_category_witness :
  ∃ h',
    mergeTransfers (Some 1%positive)
      (Some [deposit "cash" "Bank" "USD" 10]) (heap_btc 500)
    = Returned (Some 1%positive) h' ∧
    h' !! 1%positive
    = Some (mkPortfolioData
              (Some [mkCategory "crypto" "Crypto" "#f6ad55"
                       [plainItem "BTC" "Binance" 500];
                     mkCategory "cash" "cash" "#cbd5e0"
                       [mkItem "USD" "Bank" 10 (Some 0) (Some true)
                          (Some 10) (Some [10])]])).
Proof.
  destruct (mergeTransfers_new_category (heap_btc 500) 1%positive
              [mkCategory "crypto" "Crypto" "#f6ad55"
                 [plainItem "BTC" "Binance" 500]]
              "cash" "Bank" "USD" 10) as (h' & Hrun & Hl).
  - reflexivity.
  - apply (bool_decide_unpack _). vm_compute. reflexivity.
  - exists h'. split; [exact Hrun|]. rewrite Hl. vm_compute. reflexivity.
Defined.
